(** * The scene controller [World] of the model customizer

    A shallow embedding of the [World] class (picking, highlighting, texture
    application, pointer tracking) together with the few engine values it
    touches.  JavaScript numbers are binary64 floats ([PrimFloat]); the
    [material] property of scene objects is a store keyed by the engine's
    object id, so that aliasing between [this.target], [this.chair] and the
    objects reported by the raycaster is kept; promises are represented by
    the way they settle. *)

From Stdlib Require Import ZArith Uint63 Floats Sorted.
From stdpp Require Import gmap list strings.

(** ** Engine values *)

(** Texture wrapping modes. *)
Inductive Wrapping : Set :=
| RepeatWrapping
| ClampToEdgeWrapping
| MirroredRepeatWrapping.

(** A loaded texture: the image it was read from and its two wrap modes. *)
Record Texture : Set := mkTexture {
  image : string;
  wrapS : Wrapping;
  wrapT : Wrapping
}.

(** A material object.  [mat_id] is the engine's per-object counter value:
    two materials are the same JavaScript object exactly when they are
    equal here. *)
Record Material : Set := mkMaterial {
  mat_id : nat;
  mat_color : Z;
  mat_transparent : bool;
  mat_opacity : float;
  mat_map : option Texture
}.

(** [new MeshPhongMaterial({ map: texture })] allocated under counter [n]:
    every other parameter keeps the engine default. *)
Definition MeshPhongMaterial_map (n : nat) (texture : Texture) : Material :=
  {| mat_id := n; mat_color := 0xffffff; mat_transparent := false;
     mat_opacity := 1%float; mat_map := Some texture |}.

(** [new MeshPhongMaterial({ color: 0xff0000, transparent: true, opacity: 0.5 })]. *)
Definition MeshPhongMaterial_selected (n : nat) : Material :=
  {| mat_id := n; mat_color := 0xff0000; mat_transparent := true;
     mat_opacity := 0.5%float; mat_map := None |}.

Record Vector2 : Set := mkVector2 { x : float; y : float }.

(** A node of the scene graph.  The graph's shape never changes once the
    model is loaded; [isMesh] is the outcome of [obj instanceof Mesh]. *)
#[warnings="-register-all"]
Inductive Object3D : Set :=
  mkObject3D { object_id : nat; isMesh : bool; children : list Object3D }.

(** One entry of the raycaster's answer. *)
Record Intersection : Set := mkIntersection {
  distance : float;
  object : Object3D
}.

(** The part of a pointer event that [mousemove] reads. *)
Record MouseEvent : Set := mkMouseEvent { clientX : float; clientY : float }.

(** The canvas element's client box. *)
Record Canvas : Set := mkCanvas { clientWidth : float; clientHeight : float }.

(** What the glTF loader hands over: the root group and the [material]
    property of each object under it. *)
Record GLTF : Type := mkGLTF {
  gltf_scene : Object3D;
  gltf_material : gmap nat Material
}.

(** A settled promise. *)
Inductive Settled (A : Type) : Type :=
| Fulfilled (value : A)
| Rejected (reason : string).
Arguments Fulfilled {A} value.
Arguments Rejected {A} reason.

(** What [console.log] was called with. *)
Inductive LogEntry : Set :=
| LogObject (o : Object3D)
| LogError (reason : string).

(** ** Completions: a call either returns or throws *)

Inductive Completion (A : Type) : Type :=
| Normal (value : A)
| Throw (error : string).
Arguments Normal {A} value.
Arguments Throw {A} error.

Definition bind {A B : Type} (c : Completion A) (k : A -> Completion B) : Completion B :=
  match c with
  | Normal a => k a
  | Throw e => Throw e
  end.

Notation "'let*' v := c 'in' k" := (bind c (fun v => k))
  (at level 10, v name, c at level 100, k at level 200).

(** Reading a property of [o]: a [TypeError] when [o] is null or undefined. *)
Definition member {A : Type} (o : option A) : Completion A :=
  match o with
  | Some a => Normal a
  | None => Throw "TypeError"
  end.

(** [obj.traverse(callback)]: the callback on [obj], then on each child's
    subtree in order; [S] is whatever the callback updates. *)
Fixpoint traverse {S : Type} (callback : Object3D -> S -> S) (obj : Object3D) (s : S) : S :=
  fold_left (fun acc child => traverse callback child acc) (children obj) (callback obj s).

(** The objects [traverse] visits, in visiting order. *)
Fixpoint descendants (obj : Object3D) : list Object3D :=
  obj :: flat_map descendants (children obj).

(** ** The raycaster

    The camera and the ray cast from it are the engine's business:
    [setFromCamera] aims the raycaster, [intersectObjects] answers for a
    list of objects.  Whether a mesh is hit depends on its current material
    as well, so the material store is an argument. *)
Class Raycaster (Camera Ray : Type) : Type := {
  setFromCamera : Vector2 -> Camera -> Ray;
  intersectObjects : Ray -> gmap nat Material -> list Object3D -> list Intersection
}.

(** ** The controller *)

Section Controller.

Context {Camera Ray : Type} {raycaster : Raycaster Camera Ray}.

Record World : Type := mkWorld {
  chair : option Object3D;
  camera : Camera;
  domElement : Canvas;
  mouse : Vector2;
  target : option Object3D;
  tempMaterial : option Material;
  selectedMaterial : Material;
  (* the scene graph and the engine's objects *)
  scene : list Object3D;
  material : gmap nat Material;
  castShadow : gset nat;
  receiveShadow : gset nat;
  materialId : nat;
  (* the host *)
  console : list LogEntry;
  unhandledRejections : list string
}.

Definition set_chair (v : option Object3D) (w : World) : World :=
  mkWorld v (camera w) (domElement w) (mouse w) (target w) (tempMaterial w)
    (selectedMaterial w) (scene w) (material w) (castShadow w) (receiveShadow w)
    (materialId w) (console w) (unhandledRejections w).

Definition set_camera (v : Camera) (w : World) : World :=
  mkWorld (chair w) v (domElement w) (mouse w) (target w) (tempMaterial w)
    (selectedMaterial w) (scene w) (material w) (castShadow w) (receiveShadow w)
    (materialId w) (console w) (unhandledRejections w).

Definition set_mouse (v : Vector2) (w : World) : World :=
  mkWorld (chair w) (camera w) (domElement w) v (target w) (tempMaterial w)
    (selectedMaterial w) (scene w) (material w) (castShadow w) (receiveShadow w)
    (materialId w) (console w) (unhandledRejections w).

Definition set_target (v : option Object3D) (w : World) : World :=
  mkWorld (chair w) (camera w) (domElement w) (mouse w) v (tempMaterial w)
    (selectedMaterial w) (scene w) (material w) (castShadow w) (receiveShadow w)
    (materialId w) (console w) (unhandledRejections w).

Definition set_tempMaterial (v : option Material) (w : World) : World :=
  mkWorld (chair w) (camera w) (domElement w) (mouse w) (target w) v
    (selectedMaterial w) (scene w) (material w) (castShadow w) (receiveShadow w)
    (materialId w) (console w) (unhandledRejections w).

Definition set_scene (v : list Object3D) (w : World) : World :=
  mkWorld (chair w) (camera w) (domElement w) (mouse w) (target w) (tempMaterial w)
    (selectedMaterial w) v (material w) (castShadow w) (receiveShadow w)
    (materialId w) (console w) (unhandledRejections w).

Definition set_material (v : gmap nat Material) (w : World) : World :=
  mkWorld (chair w) (camera w) (domElement w) (mouse w) (target w) (tempMaterial w)
    (selectedMaterial w) (scene w) v (castShadow w) (receiveShadow w)
    (materialId w) (console w) (unhandledRejections w).

Definition set_shadows (cast receive : gset nat) (w : World) : World :=
  mkWorld (chair w) (camera w) (domElement w) (mouse w) (target w) (tempMaterial w)
    (selectedMaterial w) (scene w) (material w) cast receive
    (materialId w) (console w) (unhandledRejections w).

Definition set_materialId (v : nat) (w : World) : World :=
  mkWorld (chair w) (camera w) (domElement w) (mouse w) (target w) (tempMaterial w)
    (selectedMaterial w) (scene w) (material w) (castShadow w) (receiveShadow w)
    v (console w) (unhandledRejections w).

Definition set_console (v : list LogEntry) (w : World) : World :=
  mkWorld (chair w) (camera w) (domElement w) (mouse w) (target w) (tempMaterial w)
    (selectedMaterial w) (scene w) (material w) (castShadow w) (receiveShadow w)
    (materialId w) v (unhandledRejections w).

Definition set_unhandledRejections (v : list string) (w : World) : World :=
  mkWorld (chair w) (camera w) (domElement w) (mouse w) (target w) (tempMaterial w)
    (selectedMaterial w) (scene w) (material w) (castShadow w) (receiveShadow w)
    (materialId w) (console w) v.

(** [obj.material = m]. *)
Definition assign_material (obj : Object3D) (m : Material) (w : World) : World :=
  set_material (<[object_id obj := m]> (material w)) w.

(** [console.log(entry)]. *)
Definition console_log (entry : LogEntry) (w : World) : World :=
  set_console (console w ++ [entry]) w.

(** *** Promise chains

    A chain is run against the state the controller is in when the
    promise settles.  [then_] runs its callback on fulfilment and passes a
    rejection on; [catch_] handles a rejection; a chain that ends rejected
    is reported by the host as an unhandled rejection. *)

Definition then_ {A : Type} (p : Settled A) (onFulfilled : A -> World -> World)
    (w : World) : Settled unit * World :=
  match p with
  | Fulfilled a => (Fulfilled tt, onFulfilled a w)
  | Rejected e => (Rejected e, w)
  end.

Definition catch_ (pw : Settled unit * World) (onRejected : string -> World -> World)
    : Settled unit * World :=
  match pw with
  | (Fulfilled u, w) => (Fulfilled u, w)
  | (Rejected e, w) => (Fulfilled tt, onRejected e w)
  end.

Definition settle (pw : Settled unit * World) : World :=
  match pw with
  | (Fulfilled _, w) => w
  | (Rejected e, w) => set_unhandledRejections (unhandledRejections w ++ [e]) w
  end.

(** *** [loadModel] *)

Definition loadModel (loaded : Settled GLTF) (w : World) : World :=
  settle
    (catch_
       (then_ loaded
          (fun obj w =>
             let w := console_log (LogObject (gltf_scene obj)) w in
             let w := set_material (gltf_material obj ∪ material w) w in
             let w :=
               traverse
                 (fun o w =>
                    set_shadows ({[object_id o]} ∪ castShadow w)
                                ({[object_id o]} ∪ receiveShadow w) w)
                 (gltf_scene obj) w in
             let w := set_chair (Some (gltf_scene obj)) w in
             set_scene (scene w ++ [gltf_scene obj]) w)
          w)
       (fun error w => console_log (LogError error) w)).

(** *** [updateTexture] *)

(** The two assignments to [texture.wrapS] and [texture.wrapT]. *)
Definition repeat_wrapped (texture : Texture) : Texture :=
  {| image := image texture; wrapS := RepeatWrapping; wrapT := RepeatWrapping |}.

(** [new MeshPhongMaterial({ map: texture })]: the next counter value is
    taken and the counter advances. *)
Definition new_MeshPhongMaterial (texture : Texture) (w : World) : Material * World :=
  (MeshPhongMaterial_map (materialId w) texture, set_materialId (S (materialId w)) w).

(** The callback handed to [traverse]; the flag is [isUpated]. *)
Definition updateTexture_visit (texture : Texture) (obj : Object3D)
    (s : bool * World) : bool * World :=
  let '(isUpated, w) := s in
  if isMesh obj then
    let '(isUpated, w) :=
      if negb isUpated then
        let '(m, w) := new_MeshPhongMaterial texture w in
        (true, set_tempMaterial (Some m) w)
      else (isUpated, w) in
    let '(m, w) := new_MeshPhongMaterial texture w in
    (isUpated, assign_material obj m w)
  else (isUpated, w).

(** The callback run over a list of objects in order: what [traverse] does
    with it on the objects it visits. *)
Definition visit_all (texture : Texture) (l : list Object3D) (s : bool * World)
    : bool * World :=
  fold_left (fun acc obj => updateTexture_visit texture obj acc) l s.

Definition updateTexture_loaded (texture : Texture) (w : World) : World :=
  let texture := repeat_wrapped texture in
  match target w with
  | Some t => snd (traverse (updateTexture_visit texture) t (false, w))
  | None => w
  end.

Definition updateTexture (loaded : Settled Texture) (w : World) : World :=
  settle (then_ loaded updateTexture_loaded w).

(** Object [k] carries a material with color map [texture] whose counter
    value lies between [lo] and the next value to be handed out. *)
Definition textured (texture : Texture) (lo : nat) (w : World) (k : nat) : Prop :=
  exists m, material w !! k = Some m /\ mat_map m = Some texture /\
            lo <= mat_id m < materialId w.

(** *** [mousemove] *)

Definition mousemove (e : MouseEvent) (w : World) : World :=
  let clientX := clientX e in
  let clientY := clientY e in
  let clientWidth := clientWidth (domElement w) in
  let clientHeight := clientHeight (domElement w) in
  set_mouse
    {| x := ((clientX / clientWidth) * 2 - 1)%float;
       y := ((- (clientY / clientHeight)) * 2 + 1)%float |}
    w.

(** *** [restoreMaterial] and [click] *)

Definition restoreMaterial (w : World) : World :=
  match target w, tempMaterial w with
  | Some t, Some m => assign_material t m w
  | _, _ => w
  end.

(** What the raycaster answers in state [w] for the objects [objs].  The
    raycaster is aimed anew at the start of every click, before it is
    asked anything, so its ray carries nothing from one click to the next
    and is not kept in the state. *)
Definition raycast (w : World) (objs : list Object3D) : list Intersection :=
  intersectObjects (setFromCamera (mouse w) (camera w)) (material w) objs.

Definition click (w : World) : Completion World :=
  if bool_decide (chair w = None) then Normal w
  else
    let* chair_ := member (chair w) in
    let intersection := raycast w (children chair_) in
    if Nat.eqb (length intersection) 0 then
      let w := restoreMaterial w in
      Normal (set_target None w)
    else
      let target_ := head intersection in
      let w := restoreMaterial w in
      let* object_ := member (object <$> target_) in
      let w := set_target (Some object_) w in
      let w := set_tempMaterial (material w !! object_id object_) w in
      Normal (assign_material object_ (selectedMaterial w) w).

(** The state a click leaves when the ray meets [obj] first. *)
Definition selecting (obj : Object3D) (w : World) : World :=
  let w := restoreMaterial w in
  let w := set_target (Some obj) w in
  let w := set_tempMaterial (material w !! object_id obj) w in
  assign_material obj (selectedMaterial w) w.

(** *** Runs of the controller

    What can happen between two clicks: the pointer moves, and the orbit
    control (driven from [draw]) writes a new pose into the camera. *)
Inductive reachable (w0 : World) : World -> Prop :=
| reachable_start : reachable w0 w0
| reachable_click w w' :
    reachable w0 w -> click w = Normal w' -> reachable w0 w'
| reachable_mousemove w e :
    reachable w0 w -> reachable w0 (mousemove e w)
| reachable_orbit w c :
    reachable w0 w -> reachable w0 (set_camera c w).

(** The pointer and the camera moving, with no click in between. *)
Inductive moved (w : World) : World -> Prop :=
| moved_none : moved w w
| moved_mousemove w' e : moved w w' -> moved w (mousemove e w')
| moved_orbit w' c : moved w w' -> moved w (set_camera c w').

(** A state in which nothing is selected and no object carries the
    highlight material: the controller right after construction, and
    again right after the model has been loaded. *)
Definition pristine (w : World) : Prop :=
  target w = None /\ forall o, material w !! o <> Some (selectedMaterial w).

(** The shape of every state of a run that started in [w0] with nothing
    selected: the store is the starting one, except that the selected part,
    if there is one, carries the highlight while the slot holds what that
    part carried at the start. *)
Definition selection_inv (w0 w : World) : Prop :=
  selectedMaterial w = selectedMaterial w0 /\
  match target w with
  | Some t =>
      material w = <[object_id t := selectedMaterial w0]> (material w0) /\
      is_Some (material w0 !! object_id t) /\
      tempMaterial w = material w0 !! object_id t
  | None => material w = material w0
  end.

End Controller.

Arguments World : clear implicits.

(** ** Pointer positions

    JavaScript numbers are binary64 floating-point numbers.  For the
    properties that are shown by running the arithmetic, positions and
    sizes are whole numbers of pixels up to [max_pixels]. *)

(** The number [n] as a JavaScript number, counted up from zero. *)
Fixpoint pixel (n : nat) : float :=
  match n with
  | O => 0%float
  | S n' => (pixel n' + 1)%float
  end.

(** [-1 <= v && v <= 1]. *)
Definition in_clip (v : float) : bool :=
  (PrimFloat.leb (-1)%float v && PrimFloat.leb v 1%float)%bool.

(** The two coordinates [mousemove] computes, for position [c] on an
    element of size [s]. *)
Definition ndc_x (c s : float) : float := (c / s * 2 - 1)%float.
Definition ndc_y (c s : float) : float := ((- (c / s)) * 2 + 1)%float.

(** The largest element size, in pixels, that the check covers. *)
Definition max_pixels : nat := 4096.

(** [p n s && p (n + 1) (s + 1) && ...], [fuel] times. *)
Fixpoint all_sizes (fuel n : nat) (s : float) (p : nat -> float -> bool) : bool :=
  match fuel with
  | O => true
  | S fuel' => p n s && all_sizes fuel' (S n) (s + 1)%float p
  end.

(** *** Magnitudes of binary64 numbers

    A number as the floating-point specification has it: a sign, a
    mantissa [m] and an exponent [e] stand for [m * 2 ^ e].  [SF_within k f]
    says that the magnitude of [f] is at most [2 ^ k]. *)
Definition SF_within (k : Z) (f : spec_float) : Prop :=
  match f with
  | S754_zero _ => True
  | S754_finite _ m e => (e <= k /\ Zpos m <= 2 ^ (k - e))%Z
  | _ => False
  end.

Definition SF_sign (f : spec_float) : bool :=
  match f with
  | S754_zero s | S754_infinity s | S754_finite s _ _ => s
  | S754_nan => false
  end.

(** A finite nonzero [f] has sign [b]. *)
Definition SF_finite_sign (b : bool) (f : spec_float) : Prop :=
  match f with
  | S754_finite s _ _ => s = b
  | _ => True
  end.

(** ** The render loop: [draw] and [dispose]

    The [timer] field and the host's animation frames are kept beside the
    controller.  The host hands out handles 1, 2, 3, ... and runs each
    requested callback once, taking it off its list first; [pending] holds
    the handles whose callback is this controller's [draw]. *)

Record Frames : Type := mkFrames {
  handle : nat;
  pending : gset nat
}.

(** [requestAnimationFrame(this.draw)]. *)
Definition requestAnimationFrame (f : Frames) : nat * Frames :=
  (S (handle f), {| handle := S (handle f); pending := {[S (handle f)]} ∪ pending f |}).

(** [cancelAnimationFrame(id)]: nothing happens for a handle that is not
    waiting. *)
Definition cancelAnimationFrame (id : nat) (f : Frames) : Frames :=
  {| handle := handle f; pending := pending f ∖ {[id]} |}.

(** Another script of the page asks for a frame. *)
Definition requestElsewhere (f : Frames) : Frames :=
  {| handle := S (handle f); pending := pending f |}.

Record Looping (Camera : Type) : Type := mkLooping {
  world : World Camera;
  timer : nat;
  frames : Frames
}.
Arguments mkLooping {Camera} world timer frames.
Arguments world {Camera} l.
Arguments timer {Camera} l.
Arguments frames {Camera} l.

(** [draw]: the orbit control writes the pose it has reached into the
    camera, the scene is rendered (which changes nothing here), and the
    next frame is requested. *)
Definition draw {Camera : Type} (pose : Camera) (s : Looping Camera) : Looping Camera :=
  let w := set_camera pose (world s) in
  let '(id, f) := requestAnimationFrame (frames s) in
  {| world := w; timer := id; frames := f |}.

Definition dispose {Camera : Type} (s : Looping Camera) : Looping Camera :=
  {| world := world s; timer := timer s;
     frames := cancelAnimationFrame (timer s) (frames s) |}.

(** The host runs the callback waiting under [id], if there is one. *)
Definition run_frame {Camera : Type} (id : nat) (pose : Camera) (s : Looping Camera)
    : Looping Camera :=
  if decide (id ∈ pending (frames s)) then
    draw pose {| world := world s; timer := timer s;
                 frames := {| handle := handle (frames s);
                              pending := pending (frames s) ∖ {[id]} |} |}
  else s.

(** What happens while the view is mounted: frames run, other scripts ask
    for frames, event handlers change the controller. *)
Inductive loop_run {Camera : Type} (s0 : Looping Camera) : Looping Camera -> Prop :=
| loop_start : loop_run s0 s0
| loop_frame s id pose :
    loop_run s0 s -> loop_run s0 (run_frame id pose s)
| loop_elsewhere s :
    loop_run s0 s ->
    loop_run s0 {| world := world s; timer := timer s; frames := requestElsewhere (frames s) |}
| loop_handler s w :
    loop_run s0 s ->
    loop_run s0 {| world := w; timer := timer s; frames := frames s |}.

(** One frame of this controller is waiting, and it is the one [timer]
    names. *)
Definition one_frame {Camera : Type} (s : Looping Camera) : Prop :=
  pending (frames s) = {[timer s]} /\ 0 < timer s <= handle (frames s).

(** ** The build override

    [override] of the build configuration: the rules of [config.module],
    each possibly with an array under [oneOf]. *)

#[warnings="-register-all"]
Inductive Rule : Type :=
  mkRule { test : option string; use : list string; oneOf : option (list Rule) }.

Record Config : Type := mkConfig { module_rules : list Rule }.

(** [Array.isArray(rule.oneOf)]. *)
Definition isArray_oneOf (rule : Rule) : bool :=
  match oneOf rule with
  | Some _ => true
  | None => false
  end.

(** [array.splice(start, 0, item)]: a negative [start] counts from the
    end, and the position is clamped to the array. *)
Definition splice_insert {A : Type} (start : Z) (item : A) (l : list A) : list A :=
  let len := Z.of_nat (length l) in
  let actualStart :=
    if (start <? 0)%Z then Z.max (len + start) 0 else Z.min start len in
  take (Z.to_nat actualStart) l ++ item :: drop (Z.to_nat actualStart) l.

(** The rule for shader sources. *)
Definition shaderRule : Rule :=
  {| test := Some "\.(frag|vert|fragment|vertex|shader|glsl)$";
     use := ["raw-loader"; "glslify-loader"];
     oneOf := None |}.

(** The array that was spliced belongs to the first rule [found] by
    [find]: that rule shows the new contents, the others are as before. *)
Fixpoint write_found (loaders : list Rule) (rules : list Rule) : list Rule :=
  match rules with
  | [] => []
  | rule :: rules' =>
      if isArray_oneOf rule
      then {| test := test rule; use := use rule; oneOf := Some loaders |} :: rules'
      else rule :: write_found loaders rules'
  end.

Definition override (config : Config) (env : string) : Completion Config :=
  let* found := member (List.find isArray_oneOf (module_rules config)) in
  let* loaders := member (oneOf found) in
  let index := (Z.of_nat (length loaders) - 2)%Z in
  let loaders := splice_insert index shaderRule loaders in
  Normal {| module_rules := write_found loaders (module_rules config) |}.

(** ** A sample scene

    A chair whose root group has two mesh children that overlap on screen;
    the back carries a cushion mesh of its own.  The sample raycaster sees
    every object as a vertical strip of the screen at a fixed distance. *)

Definition cushion : Object3D := mkObject3D 13 true [].
Definition seat : Object3D := mkObject3D 11 true [].
Definition back : Object3D := mkObject3D 12 true [cushion].
Definition chairGroup : Object3D := mkObject3D 10 false [seat; back].
Definition plane : Object3D := mkObject3D 5 true [].

Definition highlight : Material := MeshPhongMaterial_selected 0.
Definition planeMat : Material := mkMaterial 1 0xeeeeee false 1%float None.
Definition fabric : Material := mkMaterial 2 0xffffff false 1%float None.
Definition wood : Material := mkMaterial 3 0x8b5a2b false 1%float None.

Definition sampleGLTF : GLTF :=
  {| gltf_scene := chairGroup;
     gltf_material := {[ 11 := fabric; 12 := wood; 13 := fabric ]} |}.

(** The controller as the constructor leaves it, on an 800 by 600 canvas. *)
Definition sampleStart : World unit :=
  {| chair := None; camera := tt; domElement := mkCanvas 800 600;
     mouse := mkVector2 0 0; target := None; tempMaterial := None;
     selectedMaterial := highlight; scene := [plane];
     material := {[ 5 := planeMat ]}; castShadow := ∅; receiveShadow := {[ 5 ]};
     materialId := 4; console := []; unhandledRejections := [] |}.

Definition sampleWorld : World unit := loadModel (Fulfilled sampleGLTF) sampleStart.

(** Screen strip [lo, hi] and distance of each sample object. *)
Definition sample_strip (id : nat) : option (float * float * float) :=
  match id with
  | 11 => Some ((-0.5)%float, 0.5%float, 4%float)
  | 12 => Some (0%float, 1%float, 3%float)
  | 13 => Some (0.75%float, 1%float, 2%float)
  | _ => None
  end.

Definition sample_raycast_object (ray : Vector2) (store : gmap nat Material)
    (o : Object3D) : list Intersection :=
  match sample_strip (object_id o), store !! object_id o with
  | Some (lo, hi, d), Some _ =>
      if (PrimFloat.leb lo (x ray) && PrimFloat.leb (x ray) hi)%bool
      then [mkIntersection d o] else []
  | _, _ => []
  end.

(** Insertion by ascending distance. *)
Fixpoint ascInsert (i : Intersection) (l : list Intersection) : list Intersection :=
  match l with
  | [] => [i]
  | j :: l' =>
      if PrimFloat.leb (distance i) (distance j) then i :: l else j :: ascInsert i l'
  end.

Definition ascSort (l : list Intersection) : list Intersection :=
  fold_right ascInsert [] l.

Definition sampleSetFromCamera (coords : Vector2) (_ : unit) : Vector2 := coords.

(** The objects handed over are tested one by one, their children are not,
    and the answer is sorted nearest first. *)
Definition sampleIntersectObjects (ray : Vector2) (store : gmap nat Material)
    (objs : list Object3D) : list Intersection :=
  ascSort (flat_map (sample_raycast_object ray store) objs).

#[local] Instance sampleRaycaster : Raycaster unit Vector2 :=
  {| setFromCamera := sampleSetFromCamera;
     intersectObjects := sampleIntersectObjects |}.



(** A run over the sample scene: the pointer goes where seat and back
    overlap, a click selects the nearer back, the pointer leaves the chair,
    a second click clears the selection. *)
Definition samplePointed : World unit := mousemove (mkMouseEvent 500 300) sampleWorld.
Definition sampleSelected : World unit := selecting back samplePointed.
Definition sampleAway : World unit := mousemove (mkMouseEvent 0 300) sampleSelected.
Definition sampleCleared : World unit := set_target None (restoreMaterial sampleAway).

(** With the back selected the pointer goes where only the seat is, and a
    click selects the seat. *)
Definition sampleOnSeat : World unit := mousemove (mkMouseEvent 300 300) sampleSelected.
Definition sampleSeatSelected : World unit := selecting seat sampleOnSeat.


Definition sampleTexture : Texture :=
  {| image := "img/wood_.jpg"; wrapS := ClampToEdgeWrapping; wrapT := ClampToEdgeWrapping |}.

(** The wood texture arrives while the back is selected. *)
Definition sampleTextured : World unit := updateTexture (Fulfilled sampleTexture) sampleSelected.

(** The texture arrives after the pointer has left the chair. *)
Definition sampleTexturedAway : World unit := updateTexture (Fulfilled sampleTexture) sampleAway.

(** The controller on a canvas that has collapsed to nothing. *)
Definition sampleCollapsed : World unit :=
  {| chair := None; camera := tt; domElement := mkCanvas 0 0;
     mouse := mkVector2 0 0; target := None; tempMaterial := None;
     selectedMaterial := highlight; scene := [plane];
     material := {[ 5 := planeMat ]}; castShadow := ∅; receiveShadow := {[ 5 ]};
     materialId := 4; console := []; unhandledRejections := [] |}.

(** The view is mounted: the controller is made and [draw] is called; the
    host then runs the first frame. *)
Definition sampleMounting : Looping unit :=
  {| world := sampleStart; timer := 0; frames := {| handle := 0; pending := ∅ |} |}.
Definition sampleLooping : Looping unit := run_frame 1 tt (draw tt sampleMounting).

(** A build configuration: a rule without [oneOf], then the rule with the
    loaders, the catch-all file loader last. *)
Definition sampleLoaders : list Rule :=
  [ {| test := Some "\.(js|jsx|ts|tsx)$"; use := ["babel-loader"]; oneOf := None |};
    {| test := Some "\.css$"; use := ["style-loader"; "css-loader"]; oneOf := None |};
    {| test := None; use := ["file-loader"]; oneOf := None |} ].
Definition sampleConfig : Config :=
  {| module_rules :=
       [ {| test := Some "\.(js|jsx)$"; use := ["eslint-loader"]; oneOf := None |};
         {| test := None; use := []; oneOf := Some sampleLoaders |} ] |}.
Definition sampleShortConfig : Config :=
  {| module_rules :=
       [ {| test := None; use := [];
            oneOf := Some [ {| test := None; use := ["file-loader"]; oneOf := None |} ] |} ] |}.

(** ** How a click unfolds *)

Section ClickFacts.

Context {Camera Ray : Type} {raycaster : Raycaster Camera Ray}.

Lemma click_no_model (w : World Camera) :
  chair w = None -> click w = Normal w.
Proof.
  intros Hc. unfold click. rewrite bool_decide_eq_true_2; done.
Qed.

Lemma click_miss (w : World Camera) (g : Object3D) :
  chair w = Some g -> raycast w (children g) = [] ->
  click w = Normal (set_target None (restoreMaterial w)).
Proof.
  intros Hc Hr. unfold click.
  rewrite bool_decide_eq_false_2 by (rewrite Hc; done).
  rewrite Hc. simpl. rewrite Hr. reflexivity.
Qed.

Lemma click_hit (w : World Camera) (g : Object3D) (i : Intersection) (rest : list Intersection) :
  chair w = Some g -> raycast w (children g) = i :: rest ->
  click w = Normal (selecting (object i) w).
Proof.
  intros Hc Hr. unfold click.
  rewrite bool_decide_eq_false_2 by (rewrite Hc; done).
  rewrite Hc. simpl. rewrite Hr. reflexivity.
Qed.

Lemma selecting_target (obj : Object3D) (w : World Camera) :
  target (selecting obj w) = Some obj.
Proof. reflexivity. Qed.

(** Selecting the part that is selected already changes nothing. *)
Lemma selecting_selected (obj : Object3D) (m : Material) (w : World Camera) :
  target w = Some obj -> tempMaterial w = Some m ->
  material w !! object_id obj = Some (selectedMaterial w) ->
  selecting obj w = w.
Proof.
  destruct w; simpl. intros -> -> Hm.
  unfold selecting, restoreMaterial, assign_material,
    set_material, set_tempMaterial, set_target; simpl. f_equal.
  - apply lookup_insert_eq.
  - rewrite insert_insert_eq. by apply insert_id.
Qed.

(** No click throws. *)
Lemma click_returns (w : World Camera) : exists w', click w = Normal w'.
Proof.
  destruct (chair w) as [g|] eqn:Hc.
  - destruct (raycast w (children g)) as [|i rest] eqn:Hr.
    + eexists. by apply click_miss with g.
    + eexists. by apply click_hit with g rest.
  - eexists. by apply click_no_model.
Qed.

End ClickFacts.

(** ** Selection along a run *)

Section Selection.

Context {Camera Ray : Type} {raycaster : Raycaster Camera Ray}.

(** The raycaster reports meshes only, and a mesh without a material is
    never hit: every reported object has its [material] property set. *)
Hypothesis hits_carry_material :
  forall ray store objs i,
    i ∈ intersectObjects ray store objs -> is_Some (store !! object_id (object i)).

Lemma selection_inv_start (w0 : World Camera) :
  target w0 = None -> selection_inv w0 w0.
Proof. intros H. split; [done|]. by rewrite H. Qed.

Lemma selection_inv_restore (w0 w : World Camera) :
  selection_inv w0 w -> material (restoreMaterial w) = material w0.
Proof.
  intros [_ Hinv]. unfold restoreMaterial.
  destruct (target w) as [t|]; [|done].
  destruct Hinv as (Hm & [m Hm0] & Ht). rewrite Ht, Hm0. simpl.
  rewrite Hm, insert_insert_eq. by apply insert_id.
Qed.

Lemma selection_inv_miss (w0 w : World Camera) :
  selection_inv w0 w -> selection_inv w0 (set_target None (restoreMaterial w)).
Proof.
  intros Hinv. pose proof (selection_inv_restore _ _ Hinv) as Hr.
  destruct Hinv as [Hs _]. split.
  - unfold restoreMaterial. by destruct (target w), (tempMaterial w).
  - simpl. exact Hr.
Qed.

Lemma selection_inv_hit (w0 w : World Camera) (obj : Object3D) :
  selection_inv w0 w -> is_Some (material w !! object_id obj) ->
  selection_inv w0 (selecting obj w).
Proof.
  intros Hinv Hsome. pose proof (selection_inv_restore _ _ Hinv) as Hr.
  assert (selectedMaterial (restoreMaterial w) = selectedMaterial w0) as Hsel.
  { destruct Hinv as [Hs _]. unfold restoreMaterial.
    by destruct (target w), (tempMaterial w). }
  assert (is_Some (material w0 !! object_id obj)) as Horig.
  { destruct Hinv as [_ Hinv]. destruct (target w) as [t|].
    - destruct Hinv as (Hm & Ht0 & _).
      destruct (decide (object_id t = object_id obj)) as [<-|Hne]; [done|].
      by rewrite Hm, lookup_insert_ne in Hsome.
    - by rewrite Hinv in Hsome. }
  unfold selecting. split; simpl; [done|].
  rewrite Hr, Hsel. done.
Qed.

Lemma selection_inv_click (w0 w w' : World Camera) :
  selection_inv w0 w -> click w = Normal w' -> selection_inv w0 w'.
Proof.
  intros Hinv Hclick.
  destruct (chair w) as [g|] eqn:Hc.
  - destruct (raycast w (children g)) as [|i rest] eqn:Hray.
    + rewrite (click_miss w g Hc Hray) in Hclick. injection Hclick as <-.
      by apply selection_inv_miss.
    + rewrite (click_hit w g i rest Hc Hray) in Hclick. injection Hclick as <-.
      apply selection_inv_hit; [done|].
      apply (hits_carry_material (setFromCamera (mouse w) (camera w)) _ (children g)).
      unfold raycast in Hray. rewrite Hray. left.
  - rewrite (click_no_model w Hc) in Hclick. by injection Hclick as <-.
Qed.

Lemma selection_inv_reachable (w0 w : World Camera) :
  target w0 = None -> reachable w0 w -> selection_inv w0 w.
Proof.
  intros H0 Hreach. induction Hreach as [|w w' _ IH Hclick|w e _ IH|w c _ IH].
  - by apply selection_inv_start.
  - by apply selection_inv_click with w.
  - exact IH.
  - exact IH.
Qed.


(** C2.  Along every run that starts from a pristine state, at most one
    object carries the highlight material, and while a part is selected it
    is that part which carries it.  A click that lands on a part other than
    the selected one finds the highlight on the selected part and takes it
    off: afterwards the newly hit part is the target and the only object
    with the highlight, and the part selected before has its starting
    material back. *)
Theorem selection_exclusive (w0 w : World Camera) :
  pristine w0 -> reachable w0 w ->
  (forall o1 o2,
      material w !! o1 = Some (selectedMaterial w) ->
      material w !! o2 = Some (selectedMaterial w) -> o1 = o2) /\
  (forall t, target w = Some t ->
      material w !! object_id t = Some (selectedMaterial w)) /\
  (forall t g i rest w',
      target w = Some t -> chair w = Some g ->
      raycast w (children g) = i :: rest ->
      object_id (object i) <> object_id t ->
      click w = Normal w' ->
      material w !! object_id t = Some (selectedMaterial w) /\
      material w !! object_id (object i) <> Some (selectedMaterial w) /\
      target w' = Some (object i) /\
      selectedMaterial w' = selectedMaterial w /\
      material w' !! object_id (object i) = Some (selectedMaterial w') /\
      material w' !! object_id t <> Some (selectedMaterial w') /\
      material w' !! object_id t = material w0 !! object_id t /\
      (forall o, material w' !! o = Some (selectedMaterial w') ->
                 o = object_id (object i))).
Proof.
  intros [H0 Hclean] Hreach.
  pose proof (selection_inv_reachable w0 w H0 Hreach) as Hinv.
  assert (forall t, target w = Some t ->
            material w !! object_id t = Some (selectedMaterial w)) as Hcarried.
  { intros t Ht. destruct Hinv as [Hsel Hinv]. rewrite Ht in Hinv.
    destruct Hinv as (Hm & _). by rewrite Hm, Hsel, lookup_insert_eq. }
  assert (forall o1 o2,
            material w !! o1 = Some (selectedMaterial w) ->
            material w !! o2 = Some (selectedMaterial w) -> o1 = o2) as Hone.
  { destruct Hinv as [Hsel Hinv]. rewrite Hsel. intros o1 o2 H1 H2.
    destruct (target w) as [t|].
    + destruct Hinv as (Hm & _). rewrite Hm in H1, H2.
      destruct (decide (object_id t = o1)) as [<-|Hne1];
        [|rewrite lookup_insert_ne in H1 by done; by apply Hclean in H1].
      destruct (decide (object_id t = o2)) as [<-|Hne2]; [done|].
      rewrite lookup_insert_ne in H2 by done. by apply Hclean in H2.
    + rewrite Hinv in H1. by apply Hclean in H1. }
  split; [exact Hone|]. split; [exact Hcarried|].
  intros t g i rest w' Ht Hc Hray Hne Hclick.
  pose proof (selection_inv_click w0 w w' Hinv Hclick) as [Hsel' Hinv'].
  rewrite (click_hit w g i rest Hc Hray) in Hclick. injection Hclick as <-.
  rewrite selecting_target in Hinv'. destruct Hinv' as (Hm' & _).
  split; [by apply Hcarried|].
  split; [intros Hi; apply Hne; by apply Hone; [|apply Hcarried]|].
  split; [done|].
  split; [destruct Hinv as [Hsel _]; by rewrite Hsel', Hsel|].
  rewrite Hsel', Hm'.
  split; [by rewrite lookup_insert_eq|].
  rewrite lookup_insert_ne by done.
  split; [apply Hclean|]. split; [done|].
  intros o Ho. destruct (decide (object_id (object i) = o)) as [<-|Hneo]; [done|].
  rewrite lookup_insert_ne in Ho by done. by apply Hclean in Ho.
Qed.

(** C8.  Along every run that starts from a pristine state, a click that
    lands on the part that is already selected leaves the whole state as it
    was: the part stays selected with the highlight material, and the slot
    still holds the material the part had at the start of the run, which is
    never the highlight material. *)
Theorem reselect_idempotent (w0 w w' : World Camera) (A g : Object3D)
    (i : Intersection) (rest : list Intersection) :
  pristine w0 -> reachable w0 w ->
  target w = Some A -> chair w = Some g ->
  raycast w (children g) = i :: rest -> object i = A ->
  click w = Normal w' ->
  w' = w /\
  target w' = Some A /\
  material w' !! object_id A = Some (selectedMaterial w') /\
  tempMaterial w' = material w0 !! object_id A /\
  tempMaterial w' <> Some (selectedMaterial w').
Proof.
  intros [H0 Hclean] Hreach Ht Hc Hray <- Hclick.
  pose proof (selection_inv_reachable w0 w H0 Hreach) as Hinv.
  destruct Hinv as [Hsel Hinv]. rewrite Ht in Hinv.
  destruct Hinv as (Hm & [m Hm0] & Htemp).
  rewrite (click_hit w g i rest Hc Hray) in Hclick. injection Hclick as <-.
  assert (selecting (object i) w = w) as Hsame.
  { apply selecting_selected with m; [done|by rewrite Htemp|].
    by rewrite Hm, Hsel, lookup_insert_eq. }
  rewrite Hsame. split; [done|]. split; [done|].
  rewrite Hm, Hsel, lookup_insert_eq, Htemp. split; [done|]. split; [done|].
  apply Hclean.
Qed.

End Selection.

(** ** Single clicks *)

Section Clicks.

Context {Camera Ray : Type} {raycaster : Raycaster Camera Ray}.

Lemma moved_same (w w' : World Camera) :
  moved w w' ->
  chair w' = chair w /\ target w' = target w /\ tempMaterial w' = tempMaterial w /\
  selectedMaterial w' = selectedMaterial w /\ material w' = material w.
Proof. induction 1; simpl; done. Qed.

(** C3.  Let a click select part [A], which was not the selected part and
    carried material [m]; let the pointer and the camera move; let the next
    click's ray meet nothing.  Then [A] carries [m] again, the very
    material object it had before it was selected, and nothing is selected. *)
Theorem restore_round_trip (w w1 w1' w2 : World Camera) (g A : Object3D) (m : Material)
    (i : Intersection) (rest : list Intersection) :
  chair w = Some g ->
  raycast w (children g) = i :: rest -> object i = A ->
  (forall t, target w = Some t -> object_id t <> object_id A) ->
  material w !! object_id A = Some m ->
  click w = Normal w1 ->
  moved w1 w1' ->
  raycast w1' (children g) = [] ->
  click w1' = Normal w2 ->
  target w1 = Some A /\
  material w1 !! object_id A = Some (selectedMaterial w1) /\
  material w2 !! object_id A = Some m /\
  target w2 = None.
Proof.
  intros Hc Hray <- Hother Hm Hclick1 Hmoved Hmiss Hclick2.
  rewrite (click_hit w g i rest Hc Hray) in Hclick1. injection Hclick1 as <-.
  assert (material (restoreMaterial w) !! object_id (object i) = Some m) as Hkept.
  { unfold restoreMaterial. destruct (target w) as [t|] eqn:Ht; [|done].
    destruct (tempMaterial w); [|done]. simpl.
    rewrite lookup_insert_ne; [done|]. by apply Hother. }
  destruct (moved_same _ _ Hmoved) as (Hc' & Ht' & Htemp' & Hsel' & Hmat').
  assert (chair w1' = Some g) as Hc1.
  { rewrite Hc'. simpl. unfold restoreMaterial.
    by destruct (target w), (tempMaterial w). }
  rewrite (click_miss w1' g Hc1 Hmiss) in Hclick2. injection Hclick2 as <-.
  split; [done|]. split; [simpl; by rewrite lookup_insert_eq|]. split; [|done].
  simpl. unfold restoreMaterial. rewrite Ht', Htemp'. simpl. rewrite Hkept. simpl.
  by rewrite lookup_insert_eq.
Qed.


(** C7.  While the model is not loaded a click returns normally and leaves
    the whole state, materials and selection included, as it was. *)
Theorem click_before_model_load (w : World Camera) :
  chair w = None -> click w = Normal w.
Proof. apply click_no_model. Qed.

(** C10.  With nothing selected, a click whose ray meets nothing returns
    normally and leaves the whole state as it was, whatever the
    saved-material slot holds. *)
Theorem click_empty_without_selection (w : World Camera) :
  target w = None ->
  (forall g, chair w = Some g -> raycast w (children g) = []) ->
  click w = Normal w.
Proof.
  intros Ht Hmiss. destruct (chair w) as [g|] eqn:Hc.
  - rewrite (click_miss w g Hc (Hmiss g eq_refl)).
    unfold restoreMaterial. rewrite Ht. f_equal.
    destruct w; simpl in *. by subst.
  - by apply click_no_model.
Qed.

End Clicks.

(** ** Texture application *)

Section TextureApplication.

Context {Camera : Type}.

(** Induction over the scene graph, with the children as a list. *)
Lemma Object3D_children_ind (P : Object3D -> Prop) :
  (forall id mesh kids, Forall P kids -> P (mkObject3D id mesh kids)) ->
  forall o, P o.
Proof.
  intros step. fix IH 1. intros [id mesh kids]. apply step.
  induction kids as [|kid kids IHkids]; constructor; [apply IH | exact IHkids].
Qed.

(** [traverse] is a left fold over the objects in visiting order. *)
Lemma traverse_descendants {S : Type} (callback : Object3D -> S -> S) (o : Object3D) :
  forall s, traverse callback o s = fold_left (fun acc obj => callback obj acc) (descendants o) s.
Proof.
  induction o as [id mesh kids IH] using Object3D_children_ind. intros s. simpl.
  generalize (callback (mkObject3D id mesh kids) s) as acc.
  induction IH as [|kid kids Hkid _ IHkids]; intros acc; simpl; [done|].
  rewrite fold_left_app, <- Hkid. apply IHkids.
Qed.

(** One visit: the counter advances by the number of materials made,
    textured objects stay textured, a mesh comes out textured, and the slot
    is written exactly when the flag was still down and the object is a
    mesh. *)
Lemma visit_step (texture : Texture) (obj : Object3D) (b : bool) (w : World Camera) :
  let s' := updateTexture_visit texture obj (b, w) in
  materialId s'.2 =
    materialId w + (if isMesh obj then if b then 1 else 2 else 0) /\
  (forall lo k, textured texture lo w k -> textured texture lo s'.2 k) /\
  (isMesh obj = true ->
     textured texture (if b then materialId w else S (materialId w)) s'.2 (object_id obj)) /\
  s'.1 = (b || isMesh obj) /\
  tempMaterial s'.2 =
    (if b then tempMaterial w
     else if isMesh obj then Some (MeshPhongMaterial_map (materialId w) texture)
     else tempMaterial w).
Proof.
  assert (forall n lo k (w1 : World Camera),
             textured texture lo w k -> materialId w <= n ->
             material w1 = <[object_id obj := MeshPhongMaterial_map n texture]> (material w) ->
             n < materialId w1 -> textured texture lo w1 k) as Hkeep.
  { intros n lo k w1 (m & Hm & Hmap & Hlo) Hn Hstore Hnext. unfold textured.
    rewrite Hstore. destruct (decide (object_id obj = k)) as [<-|Hne].
    - rewrite lookup_insert_eq. eexists. split; [done|]. simpl. split; [done|lia].
    - rewrite lookup_insert_ne by done. exists m. split; [done|]. split; [done|lia]. }
  unfold updateTexture_visit.
  destruct (isMesh obj) eqn:Hmesh, b; simpl;
    (split; [lia|]); (split; [|split; [|split; done]]).
  - intros lo k Hk. apply (Hkeep (materialId w) lo k); simpl; [done|lia|done|lia].
  - intros _. unfold textured. simpl. rewrite lookup_insert_eq.
    eexists. split; [done|]. simpl. split; [done|lia].
  - intros lo k Hk. apply (Hkeep (S (materialId w)) lo k); simpl; [done|lia|done|lia].
  - intros _. unfold textured. simpl. rewrite lookup_insert_eq.
    eexists. split; [done|]. simpl. split; [done|lia].
  - done.
  - done.
  - done.
  - done.
Qed.

Lemma textured_weaken (texture : Texture) (lo lo' : nat) (w : World Camera) (k : nat) :
  lo' <= lo -> textured texture lo w k -> textured texture lo' w k.
Proof. intros Hle (m & Hm & Hmap & Hlo). exists m. split; [done|]. split; [done|lia]. Qed.

Lemma visit_all_cons (texture : Texture) (obj : Object3D) (l : list Object3D)
    (s : bool * World Camera) :
  visit_all texture (obj :: l) s = visit_all texture l (updateTexture_visit texture obj s).
Proof. reflexivity. Qed.

(** The whole walk, from any flag and state. *)
Lemma visit_all_spec (texture : Texture) (l : list Object3D) :
  forall (b : bool) (w : World Camera),
    let s' := visit_all texture l (b, w) in
    materialId w <= materialId s'.2 /\
    (forall lo k, textured texture lo w k -> textured texture lo s'.2 k) /\
    (forall obj, obj ∈ l -> isMesh obj = true ->
       textured texture (if b then materialId w else S (materialId w)) s'.2 (object_id obj)) /\
    tempMaterial s'.2 =
      (if b then tempMaterial w
       else if existsb isMesh l then Some (MeshPhongMaterial_map (materialId w) texture)
       else tempMaterial w).
Proof.
  induction l as [|obj l IH]; intros b w.
  - simpl. split; [done|]. split; [done|]. split; [by intros obj Hin; inversion Hin|].
    by destruct b.
  - cbv zeta. rewrite visit_all_cons.
    pose proof (visit_step texture obj b w) as Hstep.
    destruct (updateTexture_visit texture obj (b, w)) as [b1 w1].
    simpl in Hstep. destruct Hstep as (Hn1 & Hkeep1 & Hnew1 & Hb1 & Htemp1).
    specialize (IH b1 w1).
    destruct (visit_all texture l (b1, w1)) as [b2 w2]. simpl in IH |- *.
    destruct IH as (Hn2 & Hkeep2 & Hnew2 & Htemp2).
    split; [lia|]. split; [by intros lo k Hk; apply Hkeep2, Hkeep1|]. split.
    + intros o Hin Hmesh. apply elem_of_cons in Hin as [->|Hin].
      * by apply Hkeep2, Hnew1.
      * apply textured_weaken with (if b1 then materialId w1 else S (materialId w1));
          [|by apply Hnew2].
        subst b1. destruct b, (isMesh obj); simpl; lia.
    + rewrite Htemp2, Htemp1, Hb1. destruct b; [done|]. simpl.
      destruct (isMesh obj); simpl; [done|].
      replace (materialId w1) with (materialId w) by lia. done.
Qed.

(** Objects that are not visited as meshes keep their material. *)
Lemma visit_all_frame (texture : Texture) (l : list Object3D) (k : nat) :
  forall (b : bool) (w : World Camera),
    (forall obj, obj ∈ l -> isMesh obj = true -> object_id obj <> k) ->
    material (visit_all texture l (b, w)).2 !! k = material w !! k.
Proof.
  induction l as [|obj l IH]; intros b w Hk; [done|].
  rewrite visit_all_cons.
  assert (material (updateTexture_visit texture obj (b, w)).2 !! k = material w !! k) as Hstep.
  { unfold updateTexture_visit. destruct (isMesh obj) eqn:Hmesh; [|done].
    assert (object_id obj <> k) as Hne by (apply Hk; [left|done]).
    destruct b; simpl; by rewrite lookup_insert_ne. }
  destruct (updateTexture_visit texture obj (b, w)) as [b1 w1].
  rewrite IH; [done|]. intros o Ho. apply Hk. by right.
Qed.

(** No two meshes of the walk end up with the same material object. *)
Lemma visit_all_distinct (texture : Texture) (l : list Object3D) :
  forall (b : bool) (w : World Camera) (o1 o2 : Object3D) (m : Material),
    o1 ∈ l -> o2 ∈ l -> isMesh o1 = true -> isMesh o2 = true ->
    material (visit_all texture l (b, w)).2 !! object_id o1 = Some m ->
    material (visit_all texture l (b, w)).2 !! object_id o2 = Some m ->
    object_id o1 = object_id o2.
Proof.
  induction l as [|obj l IH]; intros b w o1 o2 m Hin1 Hin2 Hmesh1 Hmesh2;
    [by inversion Hin1|].
  rewrite visit_all_cons.
  pose proof (visit_step texture obj b w) as Hstep.
  destruct (updateTexture_visit texture obj (b, w)) as [b1 w1].
  simpl in Hstep. destruct Hstep as (_ & _ & Hnew1 & _ & _).
  pose proof (visit_all_spec texture l b1 w1) as (_ & _ & Hnew2 & _).
  assert (forall o, o ∈ l -> isMesh o = true -> isMesh obj = true ->
            material (visit_all texture l (b1, w1)).2 !! object_id obj = Some m ->
            material (visit_all texture l (b1, w1)).2 !! object_id o = Some m ->
            object_id obj = object_id o) as Hhead.
  { intros o Ho Hmesh Hmesh_obj Hobj Hm.
    destruct (decide (Exists (fun o' => isMesh o' = true /\ object_id o' = object_id obj) l))
      as [Hagain|Hnever].
    - apply Exists_exists in Hagain as (o' & Ho' & Hmesh' & Heq).
      rewrite <- Heq in Hobj |- *. by apply (IH b1 w1 o' o m).
    - rewrite visit_all_frame in Hobj.
      + destruct (Hnew1 Hmesh_obj) as (m1 & Hm1 & _ & Hid1).
        destruct (Hnew2 o Ho Hmesh) as (m2 & Hm2 & _ & Hid2).
        rewrite Hm1 in Hobj. rewrite Hm2 in Hm. simplify_eq. destruct b1; lia.
      + intros o' Ho' Hmesh' Heq. apply Hnever, Exists_exists. by exists o'. }
  apply elem_of_cons in Hin1 as [->|Hin1]; apply elem_of_cons in Hin2 as [->|Hin2].
  - done.
  - intros H1 H2. by apply (Hhead o2).
  - intros H1 H2. symmetry. by apply (Hhead o1).
  - by apply IH.
Qed.

(** C5 (as amended).  When the texture load succeeds while [t] is
    selected, the texture is set to repeat on both axes; every mesh in the
    subtree of [t] is given a material made during this call whose color
    map is that texture, no two meshes the same one; and if the subtree
    holds a mesh, the saved-material
    slot is overwritten with one more material of the same kind, made when
    the first mesh is visited.  The saved material is an object of its own:
    it is not the material given to any mesh.  Without a mesh the slot is
    left alone. *)
Theorem updateTexture_postcondition (texture : Texture) (w : World Camera) (t : Object3D) :
  target w = Some t ->
  let texture' := repeat_wrapped texture in
  let w' := updateTexture (Fulfilled texture) w in
  wrapS texture' = RepeatWrapping /\ wrapT texture' = RepeatWrapping /\
  (forall obj, obj ∈ descendants t -> isMesh obj = true ->
     exists m, material w' !! object_id obj = Some m /\
               mat_map m = Some texture' /\
               materialId w < mat_id m < materialId w' /\
               tempMaterial w' <> Some m) /\
  (forall o1 o2 m,
     o1 ∈ descendants t -> o2 ∈ descendants t ->
     isMesh o1 = true -> isMesh o2 = true ->
     material w' !! object_id o1 = Some m -> material w' !! object_id o2 = Some m ->
     object_id o1 = object_id o2) /\
  tempMaterial w' =
    (if existsb isMesh (descendants t)
     then Some (MeshPhongMaterial_map (materialId w) texture')
     else tempMaterial w).
Proof.
  intros Ht texture' w'. split; [done|]. split; [done|].
  assert (w' = (visit_all texture' (descendants t) (false, w)).2) as Hw'.
  { unfold w', updateTexture, updateTexture_loaded. simpl. rewrite Ht.
    by rewrite traverse_descendants. }
  destruct (visit_all_spec texture' (descendants t) false w) as (_ & _ & Hnew & Htemp).
  rewrite <- Hw' in Hnew, Htemp. split; [|split; [|exact Htemp]].
  2: { intros o1 o2 m Hin1 Hin2 Hmesh1 Hmesh2. rewrite Hw'.
       by apply visit_all_distinct. }
  intros obj Hin Hmesh. destruct (Hnew obj Hin Hmesh) as (m & Hm & Hmap & Hid).
  exists m. split; [done|]. split; [done|]. split; [lia|].
  rewrite Htemp. replace (existsb isMesh (descendants t)) with true.
  - intros [= <-]. simpl in Hid. lia.
  - symmetry. apply existsb_exists. exists obj. split; [|done].
    by apply list_elem_of_In.
Qed.

(** C9 (the code at a failed load).  When the texture load fails the
    callback does not run, so no material and no slot changes; but the
    rejection is not caught: nothing is logged and the host is left with an
    unhandled rejection.  [loadModel] does catch and log a failed load. *)
Theorem updateTexture_rejection_unhandled (reason : string) (w : World Camera) :
  let w' := updateTexture (Rejected reason) w in
  material w' = material w /\ tempMaterial w' = tempMaterial w /\
  target w' = target w /\
  console w' = console w /\
  unhandledRejections w' = unhandledRejections w ++ [reason] /\
  console (loadModel (Rejected reason) w) = console w ++ [LogError reason] /\
  unhandledRejections (loadModel (Rejected reason) w) = unhandledRejections w.
Proof. repeat split. Qed.

End TextureApplication.

(** ** Binary64 arithmetic

    Bounds on the results of the floating-point operations, from their
    specification: division, doubling, and adding or taking away 1. *)

Section Binary64.
Local Open Scope Z_scope.

Lemma digits2_pos_bounds (p : positive) :
  2 ^ (Zpos (digits2_pos p) - 1) <= Zpos p < 2 ^ Zpos (digits2_pos p).
Proof.
  induction p as [p IH|p IH|]; simpl digits2_pos.
  - rewrite Pos2Z.inj_succ, (Pos2Z.inj_xI p).
    replace (Z.succ (Z.pos (digits2_pos p)) - 1) with (Z.succ (Z.pos (digits2_pos p) - 1)) by lia.
    rewrite !Z.pow_succ_r by lia. lia.
  - rewrite Pos2Z.inj_succ, (Pos2Z.inj_xO p).
    replace (Z.succ (Z.pos (digits2_pos p)) - 1) with (Z.succ (Z.pos (digits2_pos p) - 1)) by lia.
    rewrite !Z.pow_succ_r by lia. lia.
  - simpl. lia.
Qed.

Lemma Zdigits2_upper (m k : Z) : 0 <= k -> 0 <= m < 2 ^ k -> 0 <= Zdigits2 m <= k.
Proof.
  intros Hk [Hm Hlt]. destruct m as [|p|p]; simpl; [lia| |lia].
  pose proof (digits2_pos_bounds p) as [Hlo _].
  split; [lia|].
  destruct (Z_lt_le_dec k (Zpos (digits2_pos p))) as [Hgt|]; [|lia].
  assert (2 ^ k <= 2 ^ (Zpos (digits2_pos p) - 1)) by (apply Z.pow_le_mono_r; lia).
  lia.
Qed.

Lemma Zdigits2_upper_le (m k : Z) : 0 <= k -> 0 <= m <= 2 ^ k -> 0 <= Zdigits2 m <= k + 1.
Proof.
  intros Hk [Hm Hle]. apply Zdigits2_upper; [lia|]. split; [lia|].
  rewrite Z.pow_add_r by lia. pose proof (Z.pow_pos_nonneg 2 k). lia.
Qed.

Lemma digits2_pos_unique (p : positive) (k : Z) :
  2 ^ (k - 1) <= Zpos p < 2 ^ k -> 0 < k -> Zpos (digits2_pos p) = k.
Proof.
  intros [Hlo Hhi] Hk. pose proof (digits2_pos_bounds p) as [Hlo' Hhi'].
  destruct (Z_lt_le_dec k (Zpos (digits2_pos p))) as [Hgt|Hle].
  - assert (2 ^ k <= 2 ^ (Zpos (digits2_pos p) - 1)) by (apply Z.pow_le_mono_r; lia). lia.
  - destruct (Z_lt_le_dec (Zpos (digits2_pos p)) k) as [Hlt|]; [|lia].
    assert (2 ^ Zpos (digits2_pos p) <= 2 ^ (k - 1)) by (apply Z.pow_le_mono_r; lia). lia.
Qed.

Lemma shr_1_m (mrs : shr_record) :
  0 <= shr_m mrs -> shr_m (shr_1 mrs) = shr_m mrs / 2.
Proof.
  destruct mrs as [m r s]. simpl. intros Hm.
  rewrite <- Z.div2_div. destruct m as [|[p|p|]|p]; try reflexivity; lia.
Qed.

Lemma iter_shr_1_m (p : positive) :
  forall mrs, 0 <= shr_m mrs ->
    shr_m (SpecFloat.iter_pos shr_1 p mrs) = shr_m mrs / 2 ^ Zpos p.
Proof.
  induction p as [p IH|p IH|]; intros mrs Hm; simpl SpecFloat.iter_pos.
  - assert (0 <= shr_m (shr_1 mrs)) as H1
      by (rewrite shr_1_m by done; apply Z.div_pos; lia).
    assert (0 <= shr_m (SpecFloat.iter_pos shr_1 p (shr_1 mrs))) as H2
      by (rewrite IH by done; apply Z.div_pos; [done|apply Z.pow_pos_nonneg; lia]).
    rewrite IH, IH, shr_1_m by done.
    pose proof (Z.pow_pos_nonneg 2 (Zpos p)) as Hpow.
    assert (2 ^ Zpos p~1 = 2 * (2 ^ Zpos p * 2 ^ Zpos p)) as ->.
    { rewrite (Pos2Z.inj_xI p). replace (2 * Zpos p + 1) with (1 + Zpos p + Zpos p) by lia.
      rewrite !Z.pow_add_r by lia. change (2 ^ 1) with 2. lia. }
    rewrite !Z.div_div by lia. f_equal; lia.
  - assert (0 <= shr_m (SpecFloat.iter_pos shr_1 p mrs)) as H2
      by (rewrite IH by done; apply Z.div_pos; [done|apply Z.pow_pos_nonneg; lia]).
    rewrite IH, IH by done.
    pose proof (Z.pow_pos_nonneg 2 (Zpos p)) as Hpow.
    assert (2 ^ Zpos p~0 = 2 ^ Zpos p * 2 ^ Zpos p) as ->.
    { rewrite (Pos2Z.inj_xO p). replace (2 * Zpos p) with (Zpos p + Zpos p) by lia.
      rewrite !Z.pow_add_r by lia. lia. }
    rewrite Z.div_div by lia. reflexivity.
  - rewrite shr_1_m by done. reflexivity.
Qed.

Lemma fexp_binary64 (e : Z) : fexp prec emax e = Z.max (e - 53) (-1074).
Proof. reflexivity. Qed.

Lemma shr_record_of_loc_m (m : Z) (l : location) : shr_m (shr_record_of_loc m l) = m.
Proof. by destruct l as [|[]]. Qed.

Lemma shr_spec (mrs : shr_record) (e n : Z) :
  0 <= shr_m mrs ->
  shr_m (shr mrs e n).1 = shr_m mrs / 2 ^ Z.max 0 n /\
  (shr mrs e n).2 = e + Z.max 0 n /\
  0 <= shr_m (shr mrs e n).1.
Proof.
  intros Hm. destruct n as [|p|p]; simpl.
  - rewrite Z.div_1_r. lia.
  - rewrite iter_shr_1_m by done. split; [done|]. split; [done|].
    apply Z.div_pos; [done|]. apply Z.pow_pos_nonneg; lia.
  - rewrite Z.div_1_r. lia.
Qed.

Lemma round_nearest_even_bounds (m : Z) (l : location) :
  m <= round_nearest_even m l <= m + 1.
Proof. destruct l as [|[]]; simpl; try lia. destruct (Z.even m); lia. Qed.

(** Rounding does not go past a power of two: what lies below [2 ^ k] is
    rounded to at most [2 ^ k], never to an infinity or a NaN, and keeps
    its sign. *)
Lemma binary_round_aux_bound (s : bool) (mx ex : Z) (lx : location) (k : Z) :
  0 <= mx -> ex <= k -> -1074 <= k <= 971 -> mx < 2 ^ (k - ex) ->
  SF_within k (binary_round_aux prec emax s mx ex lx) /\
  SF_sign (binary_round_aux prec emax s mx ex lx) = s.
Proof.
  intros Hmx Hex Hk Hlt. unfold binary_round_aux, shr_fexp.
  rewrite !fexp_binary64.
  set (n1 := Z.max (Zdigits2 mx + ex - 53) (-1074) - ex).
  pose proof (shr_spec (shr_record_of_loc mx lx) ex n1) as (Hma & Hea & Hma0);
    [by rewrite shr_record_of_loc_m|].
  rewrite shr_record_of_loc_m in Hma.
  destruct (shr (shr_record_of_loc mx lx) ex n1) as [mrs1 ea]. simpl in Hma, Hea, Hma0.
  pose proof (Zdigits2_upper mx (k - ex) ltac:(lia) ltac:(lia)) as Hd.
  assert (ea <= k) as Heak by lia.
  assert (ex <= ea) as Hexa by lia.
  assert (shr_m mrs1 < 2 ^ (k - ea)) as Hma_lt.
  { rewrite Hma. replace (Z.max 0 n1) with (ea - ex) by lia.
    apply Z.div_lt_upper_bound; [apply Z.pow_pos_nonneg; lia|].
    rewrite <- Z.pow_add_r by lia. by replace (ea - ex + (k - ea)) with (k - ex) by lia. }
  pose proof (round_nearest_even_bounds (shr_m mrs1) (loc_of_shr_record mrs1)) as Hmb.
  set (mb := round_nearest_even (shr_m mrs1) (loc_of_shr_record mrs1)) in *.
  set (n2 := Z.max (Zdigits2 mb + ea - 53) (-1074) - ea).
  pose proof (shr_spec (shr_record_of_loc mb loc_Exact) ea n2) as (Hmc & Hec & Hmc0);
    [simpl; lia|].
  simpl shr_record_of_loc in *.
  change (fexp prec emax (Zdigits2 mb + ea) - ea) with n2.
  destruct (shr {| shr_m := mb; shr_r := false; shr_s := false |} ea n2) as [mrs2 ec].
  simpl in Hmc, Hec, Hmc0.
  pose proof (Zdigits2_upper_le mb (k - ea) ltac:(lia) ltac:(lia)) as Hd2.
  assert (ec <= k) as Heck by lia.
  assert (ea <= ec) as Heac by lia.
  assert (shr_m mrs2 <= 2 ^ (k - ec)) as Hmc_le.
  { rewrite Hmc. replace (Z.max 0 n2) with (ec - ea) by lia.
    apply Z.div_le_upper_bound; [apply Z.pow_pos_nonneg; lia|].
    rewrite <- Z.pow_add_r by lia. replace (ec - ea + (k - ec)) with (k - ea) by lia. lia. }
  destruct (shr_m mrs2) as [|m|m]; [done| |lia].
  replace (ec <=? emax - prec) with true; [done|].
  symmetry. apply Z.leb_le. change (emax - prec) with 971. lia.
Qed.

Lemma valid_finite (s : bool) (m : positive) (e : Z) :
  valid_binary (S754_finite s m e) = true ->
  -1074 <= e <= 971 /\ Zpos (digits2_pos m) <= 53 /\
  (-1074 < e -> Zpos (digits2_pos m) = 53).
Proof.
  unfold SpecFloat.valid_binary, bounded, canonical_mantissa. rewrite fexp_binary64.
  intros H. apply andb_prop in H as [Hc Hb].
  apply Z.eqb_eq in Hc. apply Z.leb_le in Hb. change (emax - prec) with 971 in Hb. lia.
Qed.

Lemma valid_finite_mantissa (s : bool) (m : positive) (e : Z) :
  valid_binary (S754_finite s m e) = true ->
  Zpos m < 2 ^ 53 /\ (-1074 < e -> 2 ^ 52 <= Zpos m).
Proof.
  intros H. apply valid_finite in H as (_ & Hd & Hn).
  pose proof (digits2_pos_bounds m) as [Hlo Hhi]. split.
  - assert (2 ^ Zpos (digits2_pos m) <= 2 ^ 53) by (apply Z.pow_le_mono_r; lia). lia.
  - intros He. rewrite (Hn He) in Hlo. exact Hlo.
Qed.

(** A valid number of magnitude at most [2 ^ k] is zero, or [2 ^ k]
    itself, or lies strictly below. *)
Lemma within_cases (k : Z) (f : spec_float) :
  -1022 <= k -> valid_binary f = true -> SF_within k f ->
  (exists s, f = S754_zero s) \/
  (exists s, f = S754_finite s 4503599627370496 (k - 52)) \/
  (exists s m e, f = S754_finite s m e /\ e <= k /\ Zpos m < 2 ^ (k - e)).
Proof.
  intros Hk Hv Hw. destruct f as [s|s| |s m e]; simpl in Hw; try done.
  - left. by exists s.
  - right. destruct Hw as [He Hm].
    destruct (Z_lt_le_dec (Zpos m) (2 ^ (k - e))) as [Hlt|Hge].
    + right. by exists s, m, e.
    + left. exists s. assert (Zpos m = 2 ^ (k - e)) as Heq by lia.
      apply valid_finite in Hv as (Hr & Hd & Hn).
      assert (Zpos (digits2_pos m) = k - e + 1) as Hdig.
      { apply digits2_pos_unique; [|lia]. rewrite Heq.
        replace (k - e + 1 - 1) with (k - e) by lia. split; [lia|].
        apply Z.pow_lt_mono_r; lia. }
      assert (e = k - 52) as -> by lia.
      replace (k - (k - 52)) with 52 in Heq by lia.
      change (2 ^ 52) with (Zpos 4503599627370496) in Heq. by injection Heq as ->.
Qed.

(** A valid number of magnitude at most 1 lies between -1 and 1. *)
Lemma within_one_leb (f : spec_float) :
  valid_binary f = true -> SF_within 0 f ->
  SFleb (Prim2SF (-1)%float) f = true /\ SFleb f (Prim2SF 1%float) = true.
Proof.
  intros Hv Hw.
  change (Prim2SF (-1)%float) with (S754_finite true 4503599627370496 (-52)).
  change (Prim2SF 1%float) with (S754_finite false 4503599627370496 (-52)).
  destruct f as [s|s| |s m e]; simpl in Hw; try done.
  { destruct Hw as [He Hm].
    pose proof (valid_finite_mantissa s m e Hv) as [Hhi Hlo].
    assert (e <= -52 /\ (e = -52 -> Zpos m <= 4503599627370496)) as [He52 Hm52].
    { split.
      - destruct (Z_lt_le_dec (-52) e) as [Hgt|]; [|lia].
        assert (2 ^ (0 - e) <= 2 ^ 51) by (apply Z.pow_le_mono_r; lia).
        specialize (Hlo ltac:(lia)). change (2 ^ 52) with 4503599627370496 in Hlo.
        change (2 ^ 51) with 2251799813685248 in H. lia.
      - intros ->. exact Hm. }
    unfold SFleb, SFcompare. destruct s.
    + split; [|done]. destruct (Z.compare_spec (-52) e) as [Heq|Hlt|Hgt]; [|lia|done].
      rewrite Pos.compare_cont_spec.
      destruct (Pos.compare_spec 4503599627370496 m) as [?|Hlt|?]; [done| |done].
      specialize (Hm52 ltac:(lia)). lia.
    + split; [done|]. destruct (Z.compare_spec e (-52)) as [Heq|Hlt|Hgt]; [|done|lia].
      rewrite Pos.compare_cont_spec.
      destruct (Pos.compare_spec m 4503599627370496) as [?|?|Hgt]; [done|done|].
      specialize (Hm52 Heq). lia. }
Qed.

Lemma div_eucl_div (a b : Z) : (Z.div_eucl a b).1 = a / b /\ (Z.div_eucl a b).2 = a mod b.
Proof. unfold Z.div, Z.modulo. by destruct (Z.div_eucl a b). Qed.

Lemma new_location_0 (n : Z) : new_location n 0 = loc_Exact.
Proof. unfold new_location. by destruct (Z.even n). Qed.

(** How two valid positive numbers compare: by exponent first. *)
Lemma SFleb_finite (mx : positive) (ex : Z) (my : positive) (ey : Z) :
  SFleb (S754_finite false mx ex) (S754_finite false my ey) = true ->
  (mx = my /\ ex = ey) \/ (ex = ey /\ Zpos mx < Zpos my) \/ ex < ey.
Proof.
  unfold SFleb, SFcompare. destruct (Z.compare_spec ex ey) as [Heq|Hlt|Hgt]; [|by auto|done].
  rewrite Pos.compare_cont_spec.
  destruct (Pos.compare_spec mx my) as [Hm|Hm|Hm]; simpl; [by auto| |done].
  intros _. right. left. split; [done|]. lia.
Qed.

(** A quotient of two positive numbers, the dividend not above the
    divisor, has magnitude at most 1. *)
Lemma SFdiv_within (mx : positive) (ex : Z) (my : positive) (ey : Z) :
  valid_binary (S754_finite false mx ex) = true ->
  valid_binary (S754_finite false my ey) = true ->
  SFleb (S754_finite false mx ex) (S754_finite false my ey) = true ->
  SF_within 0 (SF64div (S754_finite false mx ex) (S754_finite false my ey)) /\
  SF_sign (SF64div (S754_finite false mx ex) (S754_finite false my ey)) = false.
Proof.
  intros Hvx Hvy Hle. unfold SF64div, SFdiv, SFdiv_core_binary. simpl xorb. simpl Zdigits2.
  rewrite fexp_binary64.
  apply SFleb_finite in Hle as [[-> ->]|Hlt].
  - replace (Z.pos (digits2_pos my) + ey - (Z.pos (digits2_pos my) + ey) - 53) with (-53) by lia.
    replace (ey - ey) with 0 by lia.
    change (Z.min (Z.max (-53) (-1074)) 0) with (-53). change (0 - -53) with 53.
    cbv iota. rewrite Z.shiftl_mul_pow2 by lia.
    pose proof (div_eucl_div (Z.pos my * 2 ^ 53) (Z.pos my)) as [Hq Hr].
    destruct (Z.div_eucl (Z.pos my * 2 ^ 53) (Z.pos my)) as [q r]. simpl in Hq, Hr.
    rewrite Z.mul_comm, Z.div_mul in Hq by lia.
    rewrite Z.mul_comm, Z.mod_mul in Hr by lia. subst q r.
    rewrite new_location_0. vm_compute. done.
  - pose proof (valid_finite_mantissa _ _ _ Hvx) as [Hxhi _].
    pose proof (valid_finite_mantissa _ _ _ Hvy) as [_ Hylo].
    pose proof (valid_finite _ _ _ Hvx) as (Hxr & _).
    set (e' := Z.min (Z.max (Z.pos (digits2_pos mx) + ex - (Z.pos (digits2_pos my) + ey) - 53)
                        (-1074)) (ex - ey)).
    set (s := ex - ey - e').
    assert (0 <= s) as Hs by lia.
    assert (e' <= 0) as He' by lia.
    assert (match s with
            | 0 => Z.pos mx
            | Z.pos _ => Z.shiftl (Z.pos mx) s
            | Z.neg _ => 0
            end = Z.pos mx * 2 ^ s) as ->.
    { destruct s as [|p|p] eqn:Hp; [lia| |lia]. by rewrite Z.shiftl_mul_pow2. }
    pose proof (div_eucl_div (Z.pos mx * 2 ^ s) (Z.pos my)) as [Hq _].
    destruct (Z.div_eucl (Z.pos mx * 2 ^ s) (Z.pos my)) as [q r]. simpl in Hq.
    assert (0 < 2 ^ s) as Hps by (apply Z.pow_pos_nonneg; lia).
    apply binary_round_aux_bound; [|done|lia|].
    + rewrite Hq. apply Z.div_pos; lia.
    + rewrite Hq. apply Z.div_lt_upper_bound; [lia|].
      replace (0 - e') with (s + (ey - ex)) by lia.
      rewrite Z.pow_add_r by lia.
      assert (Z.pos mx < Z.pos my * 2 ^ (ey - ex)) as Hlt'.
      { destruct Hlt as [[-> Hm]|He].
        - replace (ey - ey) with 0 by lia. simpl. lia.
        - specialize (Hylo ltac:(lia)).
          assert (2 ^ 1 <= 2 ^ (ey - ex)) as Hp1 by (apply Z.pow_le_mono_r; lia).
          change (2 ^ 1) with 2 in Hp1. change (2 ^ 53) with (2 ^ 52 * 2) in Hxhi.
          assert (2 ^ 52 * 2 <= Z.pos my * 2 ^ (ey - ex)) by (apply Z.mul_le_mono_nonneg; lia).
          lia. }
      assert (Z.pos mx * 2 ^ s < Z.pos my * 2 ^ (ey - ex) * 2 ^ s)
        by (apply Z.mul_lt_mono_pos_r; lia).
      lia.
Qed.

(** Doubling a number of magnitude at most 1 gives one of magnitude at
    most 2, of the same sign. *)
Lemma SFmul_two_within (f : spec_float) :
  valid_binary f = true -> SF_within 0 f ->
  SF_within 1 (SF64mul f (Prim2SF 2%float)) /\
  SF_sign (SF64mul f (Prim2SF 2%float)) = SF_sign f.
Proof.
  intros Hv Hw. change (Prim2SF 2%float) with (S754_finite false 4503599627370496 (-51)).
  destruct (within_cases 0 f ltac:(lia) Hv Hw) as [[s ->]|[[s ->]|(s & m & e & -> & He & Hm)]].
  - by destruct s.
  - destruct s; vm_compute; split; (split; [discriminate|discriminate]) || reflexivity.
  - unfold SF64mul, SFmul. replace (xorb s false) with s by (by destruct s).
    simpl SF_sign at 2.
    apply binary_round_aux_bound; [lia|lia|lia|].
    rewrite Pos2Z.inj_mul. replace (1 - (e + -51)) with (0 - e + 52) by lia.
    rewrite Z.pow_add_r by lia. change (2 ^ 52) with (Z.pos 4503599627370496).
    apply Z.mul_lt_mono_pos_r; lia.
Qed.

Lemma iter_xO (d m : positive) : Zpos (Pos.iter xO m d) = Zpos m * 2 ^ Zpos d.
Proof.
  induction d as [|d IH] using Pos.peano_ind.
  - simpl. lia.
  - rewrite Pos.iter_succ, Pos2Z.inj_succ, Z.pow_succ_r, (Pos2Z.inj_xO (Pos.iter xO m d)) by lia.
    rewrite IH. lia.
Qed.

Lemma shl_align_spec (mx : positive) (ex ex' : Z) :
  (shl_align mx ex ex').2 = Z.min ex ex' /\
  Zpos (shl_align mx ex ex').1 = Zpos mx * 2 ^ (ex - Z.min ex ex').
Proof.
  unfold shl_align. destruct (ex' - ex) as [|d|d] eqn:Hd; simpl.
  - replace (ex - Z.min ex ex') with 0 by lia. simpl. lia.
  - replace (ex - Z.min ex ex') with 0 by lia. simpl. lia.
  - rewrite iter_xO. replace (ex - Z.min ex ex') with (Z.pos d) by lia. lia.
Qed.

Lemma binary_round_within (s : bool) (d : positive) (ez k : Z) :
  ez <= k -> -1074 <= k <= 971 -> Zpos d < 2 ^ (k - ez) ->
  SF_within k (binary_round prec emax s d ez).
Proof.
  intros Hez Hk Hd. unfold binary_round.
  pose proof (shl_align_spec d ez (fexp prec emax (Z.pos (digits2_pos d) + ez))) as [He Hm].
  destruct (shl_align d ez (fexp prec emax (Z.pos (digits2_pos d) + ez))) as [mz ez'].
  simpl in He, Hm.
  apply binary_round_aux_bound; [lia|lia|lia|].
  rewrite Hm, He.
  set (t := Z.min ez (fexp prec emax (Z.pos (digits2_pos d) + ez))).
  replace (k - t) with (k - ez + (ez - t)) by lia.
  rewrite Z.pow_add_r by lia.
  apply Z.mul_lt_mono_pos_r; [apply Z.pow_pos_nonneg; lia|done].
Qed.

Lemma binary_normalize_within (D ez k : Z) :
  ez <= k -> -1074 <= k <= 971 -> Z.abs D < 2 ^ (k - ez) ->
  SF_within k (binary_normalize prec emax D ez false).
Proof.
  intros Hez Hk HD. destruct D as [|d|d]; simpl; [done| |]; by apply binary_round_within.
Qed.

(** A sum or difference of aligned mantissas [A] and [B] where [B] is
    [1] and [A] at most [2]. *)
Lemma aligned_one (m : positive) (e : Z) :
  e <= 1 -> Zpos m < 2 ^ (1 - e) ->
  let ez := Z.min e (-52) in
  let A := Zpos (shl_align m e ez).1 in
  let B := Zpos (shl_align 4503599627370496 (-52) ez).1 in
  ez <= 0 /\ B = 2 ^ (0 - ez) /\ 0 < A < 2 * B.
Proof.
  intros He Hm ez A B.
  pose proof (shl_align_spec m e ez) as [_ HA].
  pose proof (shl_align_spec 4503599627370496 (-52) ez) as [_ HB].
  fold A in HA. fold B in HB.
  replace (Z.min e ez) with ez in HA by lia.
  replace (Z.min (-52) ez) with ez in HB by lia.
  split; [lia|].
  assert (B = 2 ^ (0 - ez)) as HB'.
  { rewrite HB. change (Z.pos 4503599627370496) with (2 ^ 52).
    rewrite <- Z.pow_add_r by lia. f_equal. lia. }
  split; [done|]. split; [lia|].
  rewrite HA, HB'. replace (2 * 2 ^ (0 - ez)) with (2 ^ (1 - e) * 2 ^ (e - ez)).
  - apply Z.mul_lt_mono_pos_r; [apply Z.pow_pos_nonneg; lia|done].
  - rewrite <- Z.pow_add_r by lia. replace (1 - e + (e - ez)) with (Z.succ (0 - ez)) by lia.
    by rewrite Z.pow_succ_r by lia.
Qed.

(** Taking 1 from a number between 0 and 2 gives one of magnitude at most 1. *)
Lemma SFsub_one_within (f : spec_float) :
  valid_binary f = true -> SF_within 1 f -> SF_finite_sign false f ->
  SF_within 0 (SF64sub f (Prim2SF 1%float)).
Proof.
  intros Hv Hw Hs. change (Prim2SF 1%float) with (S754_finite false 4503599627370496 (-52)).
  destruct (within_cases 1 f ltac:(lia) Hv Hw) as [[s ->]|[[s ->]|(s & m & e & -> & He & Hm)]];
    simpl in Hs; try subst s.
  - vm_compute. split; discriminate.
  - vm_compute. split; discriminate.
  - unfold SF64sub, SFsub. simpl cond_Zopp.
    destruct (aligned_one m e He Hm) as (Hez & HB & HA).
    apply binary_normalize_within; [done|lia|]. rewrite <- HB. clear HB.
    revert HA. generalize (Z.pos (shl_align m e (Z.min e (-52))).1).
    generalize (Z.pos (shl_align 4503599627370496 (-52) (Z.min e (-52))).1). lia.
Qed.

(** Adding 1 to a number between -2 and 0 gives one of magnitude at most 1. *)
Lemma SFadd_one_within (f : spec_float) :
  valid_binary f = true -> SF_within 1 f -> SF_finite_sign true f ->
  SF_within 0 (SF64add f (Prim2SF 1%float)).
Proof.
  intros Hv Hw Hs. change (Prim2SF 1%float) with (S754_finite false 4503599627370496 (-52)).
  destruct (within_cases 1 f ltac:(lia) Hv Hw) as [[s ->]|[[s ->]|(s & m & e & -> & He & Hm)]];
    simpl in Hs; try subst s.
  - vm_compute. split; discriminate.
  - vm_compute. split; discriminate.
  - unfold SF64add, SFadd. simpl cond_Zopp.
    destruct (aligned_one m e He Hm) as (Hez & HB & HA).
    apply binary_normalize_within; [done|lia|]. rewrite <- HB. clear HB.
    revert HA. generalize (Z.pos (shl_align m e (Z.min e (-52))).1).
    generalize (Z.pos (shl_align 4503599627370496 (-52) (Z.min e (-52))).1). lia.
Qed.

Lemma SFmul_two_finite_sign (b : bool) (f : spec_float) :
  valid_binary f = true -> SF_within 0 f -> SF_finite_sign b f ->
  SF_finite_sign b (SF64mul f (Prim2SF 2%float)).
Proof.
  intros Hv Hw Hs. destruct (SFmul_two_within f Hv Hw) as [_ Hsign].
  revert Hsign. change (Prim2SF 2%float) with (S754_finite false 4503599627370496 (-51)).
  destruct f as [s|s| |s m e]; try done. simpl in Hs. subst s. simpl SF_sign at 2.
  by destruct (SF64mul _ _).
Qed.

(** The quotient of a finite position by a size it does not exceed. *)
Lemma quotient_within (c s : float) :
  PrimFloat.leb 0 c = true -> PrimFloat.leb c s = true ->
  PrimFloat.ltb 0 s = true -> PrimFloat.ltb c infinity = true ->
  SF_within 0 (Prim2SF (c / s)) /\ SF_finite_sign false (Prim2SF (c / s)).
Proof.
  rewrite !FloatAxioms.leb_spec, !FloatAxioms.ltb_spec, FloatAxioms.div_spec.
  change (Prim2SF 0%float) with (S754_zero false).
  change (Prim2SF infinity) with (S754_infinity false).
  pose proof (FloatAxioms.Prim2SF_valid c) as Hvc.
  pose proof (FloatAxioms.Prim2SF_valid s) as Hvs.
  destruct (Prim2SF c) as [bc|bc| |bc mc ec]; try done;
    destruct (Prim2SF s) as [bs|bs| |bs ms es]; try done;
    destruct bc; try done; destruct bs; try done.
  intros _ Hle _ _.
  destruct (SFdiv_within mc ec ms es Hvc Hvs Hle) as [Hw Hsign]. split; [done|].
  by destruct (SF64div _ _).
Qed.

(** The range of both coordinates, for every finite position between the
    origin and the size of a canvas of positive size. *)
Lemma ndc_x_in_clip (c s : float) :
  PrimFloat.leb 0 c = true -> PrimFloat.leb c s = true ->
  PrimFloat.ltb 0 s = true -> PrimFloat.ltb c infinity = true ->
  in_clip (ndc_x c s) = true.
Proof.
  intros H0 Hle Hpos Hfin.
  destruct (quotient_within c s H0 Hle Hpos Hfin) as [Hq Hqs].
  pose proof (FloatAxioms.Prim2SF_valid (c / s)) as Hvq.
  pose proof (FloatAxioms.Prim2SF_valid (c / s * 2)) as Hvm.
  pose proof (FloatAxioms.Prim2SF_valid (c / s * 2 - 1)) as Hvt.
  destruct (SFmul_two_within _ Hvq Hq) as [Hm _].
  pose proof (SFmul_two_finite_sign false _ Hvq Hq Hqs) as Hms.
  rewrite <- FloatAxioms.mul_spec in Hm, Hms.
  pose proof (SFsub_one_within _ Hvm Hm Hms) as Ht.
  rewrite <- FloatAxioms.sub_spec in Ht.
  destruct (within_one_leb _ Hvt Ht) as [Hlo Hhi].
  unfold in_clip, ndc_x. rewrite !FloatAxioms.leb_spec, Hlo, Hhi. done.
Qed.

Lemma SFopp_within (k : Z) (f : spec_float) : SF_within k f -> SF_within k (SFopp f).
Proof. by destruct f. Qed.

Lemma SFopp_finite_sign (b : bool) (f : spec_float) :
  SF_finite_sign b f -> SF_finite_sign (negb b) (SFopp f).
Proof. destruct f; simpl; try done. by intros ->. Qed.

Lemma ndc_y_in_clip (c s : float) :
  PrimFloat.leb 0 c = true -> PrimFloat.leb c s = true ->
  PrimFloat.ltb 0 s = true -> PrimFloat.ltb c infinity = true ->
  in_clip (ndc_y c s) = true.
Proof.
  intros H0 Hle Hpos Hfin.
  destruct (quotient_within c s H0 Hle Hpos Hfin) as [Hq Hqs].
  apply (SFopp_within 0) in Hq. apply SFopp_finite_sign in Hqs. simpl negb in Hqs.
  rewrite <- FloatAxioms.opp_spec in Hq, Hqs.
  pose proof (FloatAxioms.Prim2SF_valid (- (c / s))) as Hvq.
  pose proof (FloatAxioms.Prim2SF_valid (- (c / s) * 2)) as Hvm.
  pose proof (FloatAxioms.Prim2SF_valid (- (c / s) * 2 + 1)) as Hvt.
  destruct (SFmul_two_within _ Hvq Hq) as [Hm _].
  pose proof (SFmul_two_finite_sign true _ Hvq Hq Hqs) as Hms.
  rewrite <- FloatAxioms.mul_spec in Hm, Hms.
  pose proof (SFadd_one_within _ Hvm Hm Hms) as Ht.
  rewrite <- FloatAxioms.add_spec in Ht.
  destruct (within_one_leb _ Hvt Ht) as [Hlo Hhi].
  unfold in_clip, ndc_y. rewrite !FloatAxioms.leb_spec, Hlo, Hhi. done.
Qed.

(** The origin, on any canvas of positive size. *)
Lemma ndc_origin (s : float) :
  PrimFloat.ltb 0 s = true -> ndc_x 0 s = (-1)%float /\ ndc_y 0 s = 1%float.
Proof.
  intros Hpos. rewrite FloatAxioms.ltb_spec in Hpos.
  change (Prim2SF 0%float) with (S754_zero false) in Hpos.
  split; apply FloatAxioms.Prim2SF_inj; unfold ndc_x, ndc_y.
  - rewrite FloatAxioms.sub_spec, FloatAxioms.mul_spec, FloatAxioms.div_spec.
    change (Prim2SF 0%float) with (S754_zero false).
    destruct (Prim2SF s) as [b|b| |b m e]; try done; by destruct b.
  - rewrite FloatAxioms.add_spec, FloatAxioms.mul_spec, FloatAxioms.opp_spec,
      FloatAxioms.div_spec.
    change (Prim2SF 0%float) with (S754_zero false).
    destruct (Prim2SF s) as [b|b| |b m e]; try done; by destruct b.
Qed.

Lemma shr_1_exact (a : Z) :
  0 <= a ->
  shr_1 {| shr_m := 2 * a; shr_r := false; shr_s := false |} =
  {| shr_m := a; shr_r := false; shr_s := false |}.
Proof. destruct a as [|p|p]; [done|done|lia]. Qed.

(** Shifting out zeros loses nothing. *)
Lemma iter_shr_1_exact (p : positive) :
  forall a, 0 <= a ->
    SpecFloat.iter_pos shr_1 p {| shr_m := 2 ^ Zpos p * a; shr_r := false; shr_s := false |} =
    {| shr_m := a; shr_r := false; shr_s := false |}.
Proof.
  induction p as [p IH|p IH|]; intros a Ha; cbn [SpecFloat.iter_pos].
  - assert (0 < 2 ^ Zpos p) as Hp by (apply Z.pow_pos_nonneg; lia).
    replace (2 ^ Zpos p~1 * a) with (2 * (2 ^ Zpos p * (2 ^ Zpos p * a))).
    + rewrite shr_1_exact by lia. rewrite IH by lia. by rewrite IH.
    + rewrite (Pos2Z.inj_xI p). replace (2 * Zpos p + 1) with (1 + Zpos p + Zpos p) by lia.
      rewrite !Z.pow_add_r by lia. change (2 ^ 1) with 2. lia.
  - assert (0 < 2 ^ Zpos p) as Hp by (apply Z.pow_pos_nonneg; lia).
    replace (2 ^ Zpos p~0 * a) with (2 ^ Zpos p * (2 ^ Zpos p * a)).
    + rewrite IH by lia. by rewrite IH.
    + rewrite (Pos2Z.inj_xO p). replace (2 * Zpos p) with (Zpos p + Zpos p) by lia.
      rewrite !Z.pow_add_r by lia. lia.
  - change (2 ^ 1) with 2. by apply shr_1_exact.
Qed.

Lemma digits2_pos_shift (m : positive) (n : Z) (p : positive) :
  0 <= n -> Zpos p = 2 ^ n -> Zpos (digits2_pos (m * p)) = Zpos (digits2_pos m) + n.
Proof.
  intros Hn Hp. pose proof (digits2_pos_bounds m) as [Hlo Hhi].
  assert (0 < 2 ^ n) as Hpow by (apply Z.pow_pos_nonneg; lia).
  apply digits2_pos_unique; [|lia]. rewrite Pos2Z.inj_mul, Hp. split.
  - replace (Zpos (digits2_pos m) + n - 1) with (Zpos (digits2_pos m) - 1 + n) by lia.
    rewrite Z.pow_add_r by lia. apply Z.mul_le_mono_nonneg_r; lia.
  - rewrite Z.pow_add_r by lia. apply Z.mul_lt_mono_pos_r; lia.
Qed.

(** Doubling is exact: the exponent goes up by one, or, for a number
    below the normal range, the mantissa doubles. *)
Lemma SFmul_two_exact (m : positive) (e : Z) :
  valid_binary (S754_finite false m e) = true ->
  SF64mul (S754_finite false m e) (Prim2SF 2%float) =
  if Zpos (digits2_pos m) =? 53
  then (if e + 1 <=? 971 then S754_finite false m (e + 1) else S754_infinity false)
  else S754_finite false m~0 e.
Proof.
  intros Hv. pose proof (valid_finite _ _ _ Hv) as (Hr & Hd & Hn).
  change (Prim2SF 2%float) with (S754_finite false 4503599627370496 (-51)).
  unfold SF64mul, SFmul. simpl xorb. unfold binary_round_aux, shr_fexp.
  rewrite fexp_binary64. simpl Zdigits2.
  rewrite (digits2_pos_shift m 52 4503599627370496) by done.
  simpl shr_record_of_loc.
  destruct (Z.eqb_spec (Zpos (digits2_pos m)) 53) as [H53|H53].
  - match goal with |- context [shr _ _ ?n] => replace n with 52 by lia end.
    cbn [shr].
    replace (Z.pos (m * 4503599627370496)) with (2 ^ Zpos 52 * Zpos m)
      by (rewrite Pos2Z.inj_mul; change (2 ^ Zpos 52) with (Zpos 4503599627370496); lia).
    rewrite iter_shr_1_exact by lia.
    cbn [shr_m loc_of_shr_record round_nearest_even shr_record_of_loc].
    rewrite fexp_binary64. simpl Zdigits2. rewrite H53.
    match goal with |- context [shr _ _ ?n] => replace n with 0 by lia end.
    cbn [shr shr_m]. replace (e + -51 + 52) with (e + 1) by lia. reflexivity.
  - assert (e = -1074) as -> by lia.
    match goal with |- context [shr _ _ ?n] => replace n with 51 by lia end.
    cbn [shr].
    replace (Z.pos (m * 4503599627370496)) with (2 ^ Zpos 51 * Zpos m~0)
      by (rewrite Pos2Z.inj_mul, (Pos2Z.inj_xO m);
          change (2 ^ Zpos 51) with 2251799813685248; lia).
    rewrite iter_shr_1_exact by lia.
    cbn [shr_m loc_of_shr_record round_nearest_even shr_record_of_loc].
    rewrite fexp_binary64. cbn [Zdigits2 digits2_pos]. rewrite Pos2Z.inj_succ.
    match goal with |- context [shr _ _ ?n] => replace n with 0 by lia end.
    cbn [shr shr_m]. reflexivity.
Qed.

Lemma SFdiv_by_double_normal (m : positive) (e : Z) :
  SF64div (S754_finite false m e) (S754_finite false m (e + 1)) = Prim2SF 0.5%float.
Proof.
  unfold SF64div, SFdiv, SFdiv_core_binary. simpl xorb. simpl Zdigits2.
  rewrite fexp_binary64.
  replace (Z.pos (digits2_pos m) + e - (Z.pos (digits2_pos m) + (e + 1)) - 53) with (-54) by lia.
  replace (e - (e + 1)) with (-1) by lia.
  change (Z.min (Z.max (-54) (-1074)) (-1)) with (-54). change (-1 - -54) with 53.
  cbv iota. rewrite Z.shiftl_mul_pow2 by lia.
  pose proof (div_eucl_div (Z.pos m * 2 ^ 53) (Z.pos m)) as [Hq Hr].
  destruct (Z.div_eucl (Z.pos m * 2 ^ 53) (Z.pos m)) as [q r]. simpl in Hq, Hr.
  rewrite Z.mul_comm, Z.div_mul in Hq by lia.
  rewrite Z.mul_comm, Z.mod_mul in Hr by lia. subst q r.
  rewrite new_location_0. vm_compute. reflexivity.
Qed.

Lemma SFdiv_by_double_subnormal (m : positive) (e : Z) :
  SF64div (S754_finite false m e) (S754_finite false m~0 e) = Prim2SF 0.5%float.
Proof.
  unfold SF64div, SFdiv, SFdiv_core_binary. simpl xorb. cbn [Zdigits2 digits2_pos].
  rewrite fexp_binary64.
  replace (Z.pos (digits2_pos m) + e - (Z.pos (Pos.succ (digits2_pos m)) + e) - 53)
    with (-54) by lia.
  replace (e - e) with 0 by lia.
  change (Z.min (Z.max (-54) (-1074)) 0) with (-54). change (0 - -54) with 54.
  cbv iota. rewrite Z.shiftl_mul_pow2 by lia.
  pose proof (div_eucl_div (Z.pos m * 2 ^ 54) (Z.pos m~0)) as [Hq Hr].
  destruct (Z.div_eucl (Z.pos m * 2 ^ 54) (Z.pos m~0)) as [q r]. simpl in Hq, Hr.
  replace (Z.pos m * 2 ^ 54) with (2 ^ 53 * Z.pos m~0) in Hq, Hr
    by (rewrite (Pos2Z.inj_xO m); change (2 ^ 54) with (2 ^ 53 * 2); lia).
  rewrite Z.div_mul in Hq by lia. rewrite Z.mod_mul in Hr by lia. subst q r.
  rewrite new_location_0. vm_compute. reflexivity.
Qed.

(** Rounding keeps the sign. *)
Lemma binary_round_aux_sign (s : bool) (mx ex : Z) (lx : location) :
  binary_round_aux prec emax s mx ex lx = S754_nan \/
  SF_sign (binary_round_aux prec emax s mx ex lx) = s.
Proof.
  unfold binary_round_aux. destruct (shr_fexp prec emax mx ex lx) as [mrs1 e1].
  destruct (shr_fexp prec emax _ e1 loc_Exact) as [mrs2 e2].
  destruct (shr_m mrs2) as [|m|m]; [by right| |by left].
  destruct (e2 <=? emax - prec); by right.
Qed.

(** Only a positive number has a positive double. *)
Lemma double_positive (c : float) :
  PrimFloat.ltb 0 (c * 2) = true -> PrimFloat.ltb 0 c = true.
Proof.
  rewrite !FloatAxioms.ltb_spec, FloatAxioms.mul_spec.
  change (Prim2SF 0%float) with (S754_zero false).
  change (Prim2SF 2%float) with (S754_finite false 4503599627370496 (-51)).
  destruct (Prim2SF c) as [b|b| |b m e]; try done; destruct b; try done.
  unfold SF64mul, SFmul. simpl xorb.
  destruct (binary_round_aux_sign true (Z.pos (m * 4503599627370496)) (e + -51) loc_Exact)
    as [->|Hsign]; [done|].
  destruct (binary_round_aux _ _ _ _ _ _) as [b|b| |b m' e']; simpl in Hsign; by subst.
Qed.

(** Half way: a position whose double is the size. *)
Lemma ndc_centre (c s : float) :
  PrimFloat.ltb 0 s = true -> PrimFloat.ltb s infinity = true -> s = (c * 2)%float ->
  ndc_x c s = 0%float /\ ndc_y c s = 0%float.
Proof.
  intros Hpos Hfin ->. apply double_positive in Hpos.
  assert ((c / (c * 2))%float = 0.5%float) as Hhalf.
  { apply FloatAxioms.Prim2SF_inj. rewrite FloatAxioms.div_spec.
    rewrite FloatAxioms.ltb_spec in Hpos, Hfin.
    rewrite FloatAxioms.mul_spec in Hfin |- *.
    change (Prim2SF 0%float) with (S754_zero false) in Hpos.
    change (Prim2SF infinity) with (S754_infinity false) in Hfin.
    pose proof (FloatAxioms.Prim2SF_valid c) as Hv.
    destruct (Prim2SF c) as [b|b| |b m e]; try done; destruct b; try done.
    rewrite (SFmul_two_exact m e Hv) in Hfin |- *.
    destruct (Z.pos (digits2_pos m) =? 53).
    - destruct (e + 1 <=? 971); [apply SFdiv_by_double_normal|done].
    - apply SFdiv_by_double_subnormal. }
  unfold ndc_x, ndc_y. rewrite Hhalf. done.
Qed.

End Binary64.

(** ** Pointer tracking *)

Section PointerTracking.

Context {Camera : Type}.

Lemma all_sizes_spec (p : nat -> float -> bool) (fuel : nat) :
  forall n, all_sizes fuel n (pixel n) p = true ->
            forall k, n <= k < n + fuel -> p k (pixel k) = true.
Proof.
  induction fuel as [|fuel IH]; intros n Hall k Hk; [lia|].
  simpl in Hall. apply andb_prop in Hall as [Hn Hrest].
  destruct (decide (k = n)) as [->|Hne]; [done|].
  apply (IH (S n) Hrest). lia.
Qed.

(** Up to [max_pixels], [pixel n] is the number [n] as the engine's
    conversion from integers gives it. *)
Lemma pixel_exact (n : nat) :
  n <= max_pixels -> pixel n = PrimFloat.of_uint63 (Uint63.of_Z (Z.of_nat n)).
Proof.
  intros Hn. apply FloatAxioms.Leibniz.eqb_spec.
  assert (all_sizes (S max_pixels) 0 0%float
            (fun k s => PrimFloat.Leibniz.eqb s
                          (PrimFloat.of_uint63 (Uint63.of_Z (Z.of_nat k)))) = true) as Hall
    by (vm_compute; reflexivity).
  apply (all_sizes_spec _ _ 0 Hall n). lia.
Qed.

(** C6 (as amended).  [mousemove] changes the pointer coordinates and
    nothing else, and stores [clientX / clientWidth * 2 - 1] and
    [-(clientY / clientHeight) * 2 + 1]: the event's viewport position
    scaled by the canvas size, the vertical axis inverted, with no offset
    taken off and nothing clamped.  On a canvas of positive width, every
    finite [clientX] with [0 <= clientX <= clientWidth] is stored as a
    number in [-1, 1], and likewise [clientY] for a positive height; the
    viewport's origin is stored as (-1, 1); and on a canvas of finite size
    the point whose coordinates doubled are the width and the height is
    stored as (0, 0). *)
Theorem mousemove_pointer_mapping (e : MouseEvent) (w : World Camera) :
  let w' := mousemove e w in
  let width := clientWidth (domElement w) in
  let height := clientHeight (domElement w) in
  w' = set_mouse (mouse w') w /\
  x (mouse w') = (clientX e / width * 2 - 1)%float /\
  y (mouse w') = ((- (clientY e / height)) * 2 + 1)%float /\
  (PrimFloat.ltb 0 width = true ->
   PrimFloat.leb 0 (clientX e) = true -> PrimFloat.leb (clientX e) width = true ->
   PrimFloat.ltb (clientX e) infinity = true ->
   in_clip (x (mouse w')) = true) /\
  (PrimFloat.ltb 0 height = true ->
   PrimFloat.leb 0 (clientY e) = true -> PrimFloat.leb (clientY e) height = true ->
   PrimFloat.ltb (clientY e) infinity = true ->
   in_clip (y (mouse w')) = true) /\
  (PrimFloat.ltb 0 width = true -> clientX e = 0%float -> x (mouse w') = (-1)%float) /\
  (PrimFloat.ltb 0 height = true -> clientY e = 0%float -> y (mouse w') = 1%float) /\
  (PrimFloat.ltb 0 width = true -> PrimFloat.ltb width infinity = true ->
   width = (clientX e * 2)%float -> x (mouse w') = 0%float) /\
  (PrimFloat.ltb 0 height = true -> PrimFloat.ltb height infinity = true ->
   height = (clientY e * 2)%float -> y (mouse w') = 0%float).
Proof.
  intros w' width height. split; [done|]. split; [done|]. split; [done|].
  change (x (mouse w')) with (ndc_x (clientX e) width).
  change (y (mouse w')) with (ndc_y (clientY e) height).
  split; [intros Hpos H0 Hle Hfin; by apply ndc_x_in_clip|].
  split; [intros Hpos H0 Hle Hfin; by apply ndc_y_in_clip|].
  split; [intros Hpos ->; apply (ndc_origin width Hpos)|].
  split; [intros Hpos ->; apply (ndc_origin height Hpos)|].
  split.
  - intros Hpos Hfin Hdouble. apply (ndc_centre (clientX e) width Hpos Hfin Hdouble).
  - intros Hpos Hfin Hdouble. apply (ndc_centre (clientY e) height Hpos Hfin Hdouble).
Qed.

End PointerTracking.

(** ** Loading the model *)

Section LoadModel.

Context {Camera Ray : Type} {raycaster : Raycaster Camera Ray}.

(** The shadow flags after the walk over a list of objects. *)
Lemma shadows_fold (l : list Object3D) :
  forall w : World Camera,
    let w' :=
      fold_left
        (fun acc o =>
           set_shadows ({[object_id o]} ∪ castShadow acc)
                       ({[object_id o]} ∪ receiveShadow acc) acc) l w in
    w' = set_shadows (list_to_set (object_id <$> l) ∪ castShadow w)
                     (list_to_set (object_id <$> l) ∪ receiveShadow w) w.
Proof.
  induction l as [|o l IH]; intros w; simpl.
  - rewrite !(left_id_L ∅ (∪)). by destruct w.
  - rewrite IH. unfold set_shadows. simpl.
    by rewrite !(comm_L (∪) {[object_id o]} (list_to_set _)), <- !(assoc_L (∪)).
Qed.

(** What a loaded model leaves behind, field by field. *)
Lemma loadModel_fulfilled_state (obj : GLTF) (w : World Camera) :
  loadModel (Fulfilled obj) w =
  set_scene (scene w ++ [gltf_scene obj])
    (set_chair (Some (gltf_scene obj))
       (set_shadows
          (list_to_set (object_id <$> descendants (gltf_scene obj)) ∪ castShadow w)
          (list_to_set (object_id <$> descendants (gltf_scene obj)) ∪ receiveShadow w)
          (set_material (gltf_material obj ∪ material w)
             (console_log (LogObject (gltf_scene obj)) w)))).
Proof.
  unfold loadModel. simpl. by rewrite traverse_descendants, shadows_fold.
Qed.

(** X1.  A model that loads becomes the controller's model and is added
    to the scene; every object of it, at any depth, is made a shadow caster
    and a shadow receiver, and no flag set before is lost; the root is
    logged; the selection and the saved-material slot are left alone and no
    rejection is left unhandled. *)
Theorem loadModel_fulfilled (obj : GLTF) (w : World Camera) :
  let w' := loadModel (Fulfilled obj) w in
  chair w' = Some (gltf_scene obj) /\
  scene w' = scene w ++ [gltf_scene obj] /\
  (forall o, o ∈ descendants (gltf_scene obj) ->
             object_id o ∈ castShadow w' /\ object_id o ∈ receiveShadow w') /\
  castShadow w ⊆ castShadow w' /\ receiveShadow w ⊆ receiveShadow w' /\
  console w' = console w ++ [LogObject (gltf_scene obj)] /\
  unhandledRejections w' = unhandledRejections w /\
  target w' = target w /\ tempMaterial w' = tempMaterial w /\
  selectedMaterial w' = selectedMaterial w.
Proof.
  intros w'. unfold w'. rewrite loadModel_fulfilled_state. simpl.
  split; [done|]. split; [done|]. split.
  - intros o Ho.
    assert (object_id o ∈ (list_to_set (object_id <$> descendants (gltf_scene obj)) : gset nat))
      as Hin by (apply elem_of_list_to_set, list_elem_of_fmap; by exists o).
    split; by apply elem_of_union_l.
  - split; [apply union_subseteq_r|]. split; [apply union_subseteq_r|]. done.
Qed.

(** X2.  A model that fails to load is logged and leaves no unhandled
    rejection; the model stays absent, and a click afterwards still returns
    normally without changing anything. *)
Theorem loadModel_rejected_keeps_click_safe (reason : string) (w : World Camera) :
  chair w = None ->
  let w' := loadModel (Rejected reason) w in
  w' = console_log (LogError reason) w /\
  chair w' = None /\
  unhandledRejections w' = unhandledRejections w /\
  click w' = Normal w'.
Proof.
  intros Hc w'. split; [done|]. split; [done|]. split; [done|].
  by apply click_no_model.
Qed.

(** X3.  Loading a model into a pristine controller leaves it pristine,
    provided none of the loaded objects carries the controller's own
    highlight material: the runs of clicks may start there. *)
Theorem loadModel_pristine (obj : GLTF) (w : World Camera) :
  pristine w ->
  (forall k, gltf_material obj !! k <> Some (selectedMaterial w)) ->
  pristine (loadModel (Fulfilled obj) w).
Proof.
  intros [Ht Hclean] Hloaded. rewrite loadModel_fulfilled_state.
  split; [done|]. simpl. intros k Hk.
  apply lookup_union_Some_raw in Hk as [Hk|[_ Hk]].
  - by apply (Hloaded k).
  - by apply (Hclean k).
Qed.

End LoadModel.

(** ** What a click touches *)

Section ClickFrame.

Context {Camera Ray : Type} {raycaster : Raycaster Camera Ray}.

Lemma restoreMaterial_frame (w : World Camera) :
  restoreMaterial w = set_material (material (restoreMaterial w)) w.
Proof. unfold restoreMaterial. by destruct w as [? ? ? ? [t|] [m|]]. Qed.

Lemma restoreMaterial_other (w : World Camera) (k : nat) :
  (forall t, target w = Some t -> object_id t <> k) ->
  material (restoreMaterial w) !! k = material w !! k.
Proof.
  intros Hk. unfold restoreMaterial.
  destruct (target w) as [t|]; [|done]. destruct (tempMaterial w); [|done].
  simpl. rewrite lookup_insert_ne; [done|]. by apply Hk.
Qed.

Lemma restoreMaterial_is_Some (w : World Camera) (k : nat) :
  is_Some (material w !! k) -> is_Some (material (restoreMaterial w) !! k).
Proof.
  intros Hk. unfold restoreMaterial.
  destruct (target w) as [t|]; [|done]. destruct (tempMaterial w) as [m|]; [|done].
  simpl. destruct (decide (object_id t = k)) as [->|Hne].
  - rewrite lookup_insert_eq. by eexists.
  - by rewrite lookup_insert_ne.
Qed.

(** X4.  No click throws, and a click changes nothing but the target,
    the saved-material slot and the materials of objects: the model, the
    camera, the pointer, the highlight material, the scene, the shadow
    flags, the material counter and the log are as before. *)
Theorem click_returns_and_keeps_the_rest (w : World Camera) :
  exists w',
    click w = Normal w' /\
    w' = set_material (material w') (set_tempMaterial (tempMaterial w')
           (set_target (target w') w)).
Proof.
  destruct (chair w) as [g|] eqn:Hc.
  - destruct (raycast w (children g)) as [|i rest] eqn:Hray.
    + eexists. split; [by apply click_miss with g|].
      unfold restoreMaterial. by destruct w as [? ? ? ? [t|] [m|]].
    + eexists. split; [by apply click_hit with g rest|].
      unfold selecting, restoreMaterial. by destruct w as [? ? ? ? [t|] [m|]].
  - exists w. split; [by apply click_no_model|]. by destruct w.
Qed.

(** X5.  A click writes the material of at most two objects: the part
    that was selected before it and the part that is selected after it.
    Every other object keeps its material. *)
Theorem click_touches_two_objects (w w' : World Camera) (k : nat) :
  click w = Normal w' ->
  (forall t, target w = Some t -> object_id t <> k) ->
  (forall t, target w' = Some t -> object_id t <> k) ->
  material w' !! k = material w !! k.
Proof.
  intros Hclick Hold Hnew.
  destruct (chair w) as [g|] eqn:Hc.
  - destruct (raycast w (children g)) as [|i rest] eqn:Hray.
    + rewrite (click_miss w g Hc Hray) in Hclick. injection Hclick as <-.
      simpl. by apply restoreMaterial_other.
    + rewrite (click_hit w g i rest Hc Hray) in Hclick. injection Hclick as <-.
      simpl in Hnew |- *. rewrite lookup_insert_ne by (by apply Hnew).
      by apply restoreMaterial_other.
  - rewrite (click_no_model w Hc) in Hclick. by injection Hclick as <-.
Qed.

(** X6.  Clicking twice is clicking once: when the raycaster gives the
    second click the answer it gave the first, and the object it names
    first carries a material, the second click changes nothing. *)
Theorem click_twice_is_click_once (w w1 w2 : World Camera) :
  (forall g i rest,
      chair w = Some g -> raycast w (children g) = i :: rest ->
      is_Some (material w !! object_id (object i))) ->
  click w = Normal w1 ->
  (forall g, chair w = Some g -> raycast w1 (children g) = raycast w (children g)) ->
  click w1 = Normal w2 ->
  w2 = w1.
Proof.
  intros Hcarry Hclick1 Hsame Hclick2.
  destruct (chair w) as [g|] eqn:Hc.
  - specialize (Hsame g eq_refl).
    destruct (raycast w (children g)) as [|i rest] eqn:Hray.
    + rewrite (click_miss w g Hc Hray) in Hclick1. injection Hclick1 as <-.
      assert (chair (set_target None (restoreMaterial w)) = Some g) as Hc1
        by (rewrite restoreMaterial_frame; exact Hc).
      rewrite (click_miss _ g Hc1 Hsame) in Hclick2. by injection Hclick2 as <-.
    + rewrite (click_hit w g i rest Hc Hray) in Hclick1. injection Hclick1 as <-.
      assert (chair (selecting (object i) w) = Some g) as Hc1
        by (unfold selecting; rewrite restoreMaterial_frame; exact Hc).
      rewrite (click_hit _ g i rest Hc1 Hsame) in Hclick2. injection Hclick2 as <-.
      destruct (restoreMaterial_is_Some w (object_id (object i))
                  (Hcarry g i rest eq_refl Hray)) as [m Hm].
      apply selecting_selected with m; [done|exact Hm|].
      simpl. by rewrite lookup_insert_eq.
  - rewrite (click_no_model w Hc) in Hclick1. injection Hclick1 as <-.
    rewrite (click_no_model w Hc) in Hclick2. by injection Hclick2 as <-.
Qed.

(** X7.  Restoring twice is restoring once, and restoring writes no
    object but the selected one. *)
Theorem restoreMaterial_idempotent (w : World Camera) :
  restoreMaterial (restoreMaterial w) = restoreMaterial w /\
  forall k, (forall t, target w = Some t -> object_id t <> k) ->
            material (restoreMaterial w) !! k = material w !! k.
Proof.
  split; [|apply restoreMaterial_other].
  unfold restoreMaterial. destruct w as [? ? ? ? [t|] [m|]]; simpl; try done.
  unfold assign_material, set_material. simpl. by rewrite insert_insert_eq.
Qed.

End ClickFrame.

(** ** What a texture touches *)

Section TextureFrame.

Context {Camera Ray : Type} {raycaster : Raycaster Camera Ray}.

(** The walk changes the slot, the materials and the counter only. *)
Lemma visit_all_fields (texture : Texture) (l : list Object3D) :
  forall (b : bool) (w : World Camera),
    let w' := (visit_all texture l (b, w)).2 in
    w' = set_materialId (materialId w')
           (set_material (material w') (set_tempMaterial (tempMaterial w') w)).
Proof.
  induction l as [|obj l IH]; intros b w; [by destruct w|].
  cbv zeta. rewrite visit_all_cons.
  assert ((updateTexture_visit texture obj (b, w)).2 =
          set_materialId (materialId (updateTexture_visit texture obj (b, w)).2)
            (set_material (material (updateTexture_visit texture obj (b, w)).2)
               (set_tempMaterial (tempMaterial (updateTexture_visit texture obj (b, w)).2) w)))
    as Hstep.
  { unfold updateTexture_visit. destruct w, (isMesh obj), b; reflexivity. }
  destruct (updateTexture_visit texture obj (b, w)) as [b1 w1]. simpl in Hstep.
  specialize (IH b1 w1). cbv zeta in IH.
  remember (visit_all texture l (b1, w1)).2 as w2 eqn:Hw2. clear Hw2.
  destruct w, w1, w2.
  unfold set_materialId, set_material, set_tempMaterial in *. simpl in *.
  injection Hstep as -> -> -> -> -> -> -> -> -> -> ->.
  injection IH as -> -> -> -> -> -> -> -> -> -> ->. reflexivity.
Qed.

(** The counter after the walk: one material for each mesh, and one more
    for the slot if the flag was down and a mesh was met. *)
Lemma visit_all_counter (texture : Texture) (l : list Object3D) :
  forall (b : bool) (w : World Camera),
    materialId (visit_all texture l (b, w)).2 =
    materialId w + length (List.filter isMesh l) +
    (if b then 0 else if existsb isMesh l then 1 else 0).
Proof.
  induction l as [|obj l IH]; intros b w.
  - simpl. destruct b; lia.
  - rewrite visit_all_cons.
    pose proof (visit_step texture obj b w) as Hstep.
    destruct (updateTexture_visit texture obj (b, w)) as [b1 w1].
    simpl in Hstep. destruct Hstep as (Hn1 & _ & _ & Hb1 & _).
    rewrite IH, Hn1, Hb1. simpl.
    destruct (isMesh obj), b; simpl; lia.
Qed.

Lemma updateTexture_is_walk (texture : Texture) (w : World Camera) (t : Object3D) :
  target w = Some t ->
  updateTexture (Fulfilled texture) w =
  (visit_all (repeat_wrapped texture) (descendants t) (false, w)).2.
Proof.
  intros Ht. unfold updateTexture, updateTexture_loaded. simpl. rewrite Ht.
  by rewrite traverse_descendants.
Qed.

(** X8.  A texture that arrives while nothing is selected is dropped: no
    material is made and the state is left exactly as it was. *)
Theorem updateTexture_without_selection (texture : Texture) (w : World Camera) :
  target w = None -> updateTexture (Fulfilled texture) w = w.
Proof. intros Ht. unfold updateTexture, updateTexture_loaded. simpl. by rewrite Ht. Qed.

(** X9.  Applying a texture changes the slot, the material counter and
    the materials of the meshes under the selected part, and nothing else:
    the part stays selected, and every object that is not such a mesh keeps
    its material. *)
Theorem updateTexture_keeps_the_rest (texture : Texture) (w : World Camera) (t : Object3D) :
  target w = Some t ->
  let w' := updateTexture (Fulfilled texture) w in
  w' = set_materialId (materialId w')
         (set_material (material w') (set_tempMaterial (tempMaterial w') w)) /\
  target w' = Some t /\
  forall k, (forall obj, obj ∈ descendants t -> isMesh obj = true -> object_id obj <> k) ->
            material w' !! k = material w !! k.
Proof.
  intros Ht w'. unfold w'. rewrite (updateTexture_is_walk texture w t Ht).
  pose proof (visit_all_fields (repeat_wrapped texture) (descendants t) false w) as Hf.
  cbv zeta in Hf. split; [exact Hf|]. split.
  - rewrite Hf. exact Ht.
  - intros k Hk. by apply visit_all_frame.
Qed.

(** X10.  Applying a texture makes one material for every mesh under the
    selected part and, if there is such a mesh, one more for the slot. *)
Theorem updateTexture_materials_made (texture : Texture) (w : World Camera) (t : Object3D) :
  target w = Some t ->
  materialId (updateTexture (Fulfilled texture) w) =
  materialId w + length (List.filter isMesh (descendants t)) +
  (if existsb isMesh (descendants t) then 1 else 0).
Proof.
  intros Ht. rewrite (updateTexture_is_walk texture w t Ht).
  apply (visit_all_counter (repeat_wrapped texture) (descendants t) false w).
Qed.

(** X11.  Applying a texture to a selected mesh takes the highlight off
    it although it stays selected: the part then carries a material with
    the texture as color map, which is not the highlight material as long
    as the highlight has no color map. *)
Theorem updateTexture_replaces_highlight (texture : Texture) (w : World Camera) (t : Object3D) :
  target w = Some t -> isMesh t = true ->
  mat_map (selectedMaterial w) = None ->
  let w' := updateTexture (Fulfilled texture) w in
  target w' = Some t /\
  (exists m, material w' !! object_id t = Some m /\
             mat_map m = Some (repeat_wrapped texture)) /\
  material w' !! object_id t <> Some (selectedMaterial w').
Proof.
  intros Ht Hmesh Hplain w'. unfold w'. rewrite (updateTexture_is_walk texture w t Ht).
  pose proof (visit_all_fields (repeat_wrapped texture) (descendants t) false w) as Hf.
  cbv zeta in Hf.
  destruct (visit_all_spec (repeat_wrapped texture) (descendants t) false w)
    as (_ & _ & Hnew & _).
  destruct (Hnew t) as (m & Hm & Hmap & _); [by destruct t; left|done|].
  split; [rewrite Hf; exact Ht|]. split; [by exists m|].
  rewrite Hm. intros [= ->].
  assert (selectedMaterial (visit_all (repeat_wrapped texture) (descendants t) (false, w)).2
          = selectedMaterial w) as Hsel by (by rewrite Hf).
  rewrite Hsel, Hplain in Hmap. discriminate Hmap.
Qed.

(** X12.  A texture outlives the selection: after a texture has been
    applied to the selected part, a click into empty space gives the part
    the material kept in the slot, whose color map is the texture, not the
    material the part had before it was selected. *)
Theorem texture_survives_deselect (texture : Texture) (w w'' : World Camera) (t g : Object3D) :
  target w = Some t -> existsb isMesh (descendants t) = true ->
  chair w = Some g ->
  let w' := updateTexture (Fulfilled texture) w in
  raycast w' (children g) = [] ->
  click w' = Normal w'' ->
  target w'' = None /\
  material w'' !! object_id t =
    Some (MeshPhongMaterial_map (materialId w) (repeat_wrapped texture)).
Proof.
  intros Ht Hmeshes Hc w' Hmiss Hclick.
  pose proof (visit_all_fields (repeat_wrapped texture) (descendants t) false w) as Hf.
  cbv zeta in Hf.
  destruct (visit_all_spec (repeat_wrapped texture) (descendants t) false w)
    as (_ & _ & _ & Htemp).
  rewrite Hmeshes in Htemp. rewrite <- (updateTexture_is_walk texture w t Ht) in Hf, Htemp.
  fold w' in Hf, Htemp.
  assert (chair w' = Some g) as Hc' by (rewrite Hf; exact Hc).
  assert (target w' = Some t) as Ht' by (rewrite Hf; exact Ht).
  rewrite (click_miss w' g Hc' Hmiss) in Hclick. injection Hclick as <-.
  split; [done|]. simpl. unfold restoreMaterial. rewrite Ht', Htemp. simpl.
  by rewrite lookup_insert_eq.
Qed.

End TextureFrame.

(** ** A canvas without extent *)

Section EmptyCanvas.

Context {Camera : Type}.

(** Division by a zero size gives no number or an infinite one. *)
Lemma zero_size_check :
  all_sizes (S max_pixels) 0 0%float
    (fun _ c => negb (in_clip (ndc_x c 0)) && negb (in_clip (ndc_y c 0))) = true.
Proof. vm_compute. reflexivity. Qed.

(** X13.  [mousemove] does not guard against a canvas without extent:
    when the canvas is 0 pixels wide the stored x is outside [-1, 1] for
    every pointer position of up to 4096 whole pixels, and likewise the
    stored y when the canvas is 0 pixels high. *)
Theorem mousemove_zero_size_canvas (w : World Camera) (cx cy : nat) :
  cx <= max_pixels -> cy <= max_pixels ->
  let v := mouse (mousemove (mkMouseEvent (pixel cx) (pixel cy)) w) in
  (clientWidth (domElement w) = 0%float -> in_clip (x v) = false) /\
  (clientHeight (domElement w) = 0%float -> in_clip (y v) = false).
Proof.
  intros Hcx Hcy v.
  pose proof (all_sizes_spec _ _ 0 zero_size_check cx ltac:(lia)) as Hx.
  pose proof (all_sizes_spec _ _ 0 zero_size_check cy ltac:(lia)) as Hy.
  apply andb_prop in Hx as [Hx _]. apply andb_prop in Hy as [_ Hy].
  apply negb_true_iff in Hx, Hy.
  split; intros Hzero; unfold v, mousemove; simpl; by rewrite Hzero.
Qed.

End EmptyCanvas.

(** ** The render loop *)

Section RenderLoop.

Context {Camera : Type}.

Lemma draw_one_frame (pose : Camera) (s : Looping Camera) :
  pending (frames s) = ∅ -> one_frame (draw pose s).
Proof.
  intros Hnone. unfold one_frame, draw. simpl. rewrite Hnone.
  split; [by rewrite (right_id_L ∅ (∪))|lia].
Qed.

Lemma loop_run_one_frame (s0 s : Looping Camera) :
  one_frame s0 -> loop_run s0 s -> one_frame s.
Proof.
  intros H0 Hrun. induction Hrun as [|s id pose _ IH| s _ IH | s w _ IH].
  - exact H0.
  - destruct IH as [Hp Ht]. unfold run_frame.
    destruct (decide (id ∈ pending (frames s))) as [Hin|Hout].
    + apply draw_one_frame. simpl. rewrite Hp in Hin |- *.
      apply elem_of_singleton in Hin as ->. apply difference_diag_L.
    + by split.
  - destruct IH as [Hp Ht]. split; simpl; [done|lia].
  - exact IH.
Qed.

(** X14.  Once [draw] has been called on a controller with no frame
    waiting, then whatever frames run, whatever other scripts request and
    whatever the event handlers do, exactly one frame of the controller is
    waiting at any time, and [timer] holds its handle: the loop neither
    dies nor multiplies. *)
Theorem render_loop_keeps_one_frame (pose : Camera) (s0 s : Looping Camera) :
  pending (frames s0) = ∅ ->
  loop_run (draw pose s0) s ->
  pending (frames s) = {[timer s]} /\ 0 < timer s.
Proof.
  intros Hnone Hrun.
  destruct (loop_run_one_frame _ s (draw_one_frame pose s0 Hnone) Hrun) as [Hp Ht].
  split; [done|lia].
Qed.

(** X15.  [dispose] ends the loop started by [draw]: afterwards no frame
    of the controller is waiting, so no frame the host runs calls [draw]
    again; the controller itself is untouched, and disposing once more
    changes nothing. *)
Theorem dispose_stops_the_loop (pose : Camera) (s0 s : Looping Camera) :
  pending (frames s0) = ∅ ->
  loop_run (draw pose s0) s ->
  pending (frames (dispose s)) = ∅ /\
  world (dispose s) = world s /\
  (forall id pose', run_frame id pose' (dispose s) = dispose s) /\
  dispose (dispose s) = dispose s.
Proof.
  intros Hnone Hrun.
  destruct (loop_run_one_frame _ s (draw_one_frame pose s0 Hnone) Hrun) as [Hp _].
  assert (pending (frames (dispose s)) = ∅) as Hgone.
  { simpl. rewrite Hp. apply difference_diag_L. }
  split; [done|]. split; [done|]. split.
  - intros id pose'. unfold run_frame. rewrite Hgone.
    destruct (decide (id ∈ (∅ : gset nat))) as [Hin|_]; [|done].
    by apply not_elem_of_empty in Hin.
  - unfold dispose, cancelAnimationFrame. simpl. do 2 f_equal.
    apply set_eq. intros k. rewrite !elem_of_difference. tauto.
Qed.

(** X16.  [timer] remembers one handle only: if [draw] is called once
    more while a frame is waiting, [dispose] cancels the newer request and
    the older frame stays on the host's list, so the loop goes on. *)
Theorem dispose_misses_an_older_frame (pose pose' : Camera) (s0 s : Looping Camera) :
  pending (frames s0) = ∅ ->
  loop_run (draw pose s0) s ->
  pending (frames (dispose (draw pose' s))) = {[timer s]}.
Proof.
  intros Hnone Hrun.
  destruct (loop_run_one_frame _ s (draw_one_frame pose s0 Hnone) Hrun) as [Hp Ht].
  simpl. rewrite Hp. apply set_eq. intros k.
  rewrite elem_of_difference, elem_of_union, !elem_of_singleton. lia.
Qed.

End RenderLoop.

(** ** The build override *)

Section Override.

Lemma splice_insert_before_last_two {A : Type} (item : A) (l : list A) :
  splice_insert (Z.of_nat (length l) - 2) item l =
  take (length l - 2) l ++ item :: drop (length l - 2) l.
Proof.
  unfold splice_insert.
  replace (Z.to_nat _) with (length l - 2); [done|].
  destruct (Z.ltb_spec (Z.of_nat (length l) - 2) 0); lia.
Qed.

(** [find] stops at the first rule with an array, and that is the rule
    whose array is written. *)
Lemma find_first_array (loaders : list Rule) (before after : list Rule) (rule : Rule) :
  Forall (fun r => oneOf r = None) before -> is_Some (oneOf rule) ->
  List.find isArray_oneOf (before ++ rule :: after) = Some rule /\
  write_found loaders (before ++ rule :: after) =
  before ++ {| test := test rule; use := use rule; oneOf := Some loaders |} :: after.
Proof.
  intros Hbefore [l Hl]. induction Hbefore as [|r before Hr _ IH]; simpl.
  - unfold isArray_oneOf. by rewrite Hl.
  - unfold isArray_oneOf at 1 3. rewrite Hr. destruct IH as [-> ->]. done.
Qed.

Lemma override_found (config : Config) (env : string)
    (before after : list Rule) (rule : Rule) (loaders : list Rule) :
  module_rules config = before ++ rule :: after ->
  Forall (fun r => oneOf r = None) before -> oneOf rule = Some loaders ->
  override config env =
  Normal {| module_rules :=
              before ++
              {| test := test rule; use := use rule;
                 oneOf := Some (take (length loaders - 2) loaders ++
                                shaderRule :: drop (length loaders - 2) loaders) |} :: after |}.
Proof.
  intros Hrules Hbefore Hl. unfold override. rewrite Hrules.
  destruct (find_first_array
              (splice_insert (Z.of_nat (length loaders) - 2) shaderRule loaders)
              before after rule Hbefore) as [Hfind Hwrite]; [by eexists|].
  rewrite Hfind. simpl. rewrite Hl. simpl. rewrite Hwrite.
  by rewrite splice_insert_before_last_two.
Qed.

(** X17.  [override] puts the shader rule in front of the last two
    entries of the first rule that has a [oneOf] array: the last two
    entries stay last, the entries before them stay in front in their
    order, and every other rule of the configuration is as it was. *)
Theorem override_before_the_last_two (config : Config) (env : string)
    (before after front : list Rule) (rule a b : Rule) :
  module_rules config = before ++ rule :: after ->
  Forall (fun r => oneOf r = None) before ->
  oneOf rule = Some (front ++ [a; b]) ->
  override config env =
  Normal {| module_rules :=
              before ++
              {| test := test rule; use := use rule;
                 oneOf := Some (front ++ [shaderRule; a; b]) |} :: after |}.
Proof.
  intros Hrules Hbefore Hl.
  rewrite (override_found config env before after rule _ Hrules Hbefore Hl).
  rewrite length_app. simpl.
  replace (length front + 2 - 2) with (length front) by lia.
  by rewrite take_app_length, drop_app_length.
Qed.

(** X18.  When the [oneOf] array has fewer than two entries, the
    position two before the end does not exist and the shader rule goes to
    the front of the array. *)
Theorem override_short_array (config : Config) (env : string)
    (before after loaders : list Rule) (rule : Rule) :
  module_rules config = before ++ rule :: after ->
  Forall (fun r => oneOf r = None) before ->
  oneOf rule = Some loaders -> length loaders < 2 ->
  override config env =
  Normal {| module_rules :=
              before ++
              {| test := test rule; use := use rule;
                 oneOf := Some (shaderRule :: loaders) |} :: after |}.
Proof.
  intros Hrules Hbefore Hl Hshort.
  rewrite (override_found config env before after rule _ Hrules Hbefore Hl).
  replace (length loaders - 2) with 0 by lia. by rewrite take_0, drop_0.
Qed.

(** X19.  [override] throws a [TypeError] exactly when no rule of the
    configuration has a [oneOf] array; otherwise it returns a configuration
    with the same number of rules. *)
Theorem override_needs_a_oneOf_rule (config : Config) (env : string) :
  (Forall (fun r => oneOf r = None) (module_rules config) ->
   override config env = Throw "TypeError") /\
  (Exists (fun r => is_Some (oneOf r)) (module_rules config) ->
   exists config', override config env = Normal config' /\
                   length (module_rules config') = length (module_rules config)).
Proof.
  split.
  - intros Hnone. unfold override.
    replace (List.find isArray_oneOf (module_rules config)) with (@None Rule); [done|].
    symmetry. induction Hnone as [|r l Hr _ IH]; [done|]. simpl.
    unfold isArray_oneOf at 1. by rewrite Hr.
  - intros Hsome.
    assert (exists before rule after loaders,
               module_rules config = before ++ rule :: after /\
               Forall (fun r => oneOf r = None) before /\ oneOf rule = Some loaders)
      as (before & rule & after & loaders & Hrules & Hbefore & Hl).
    { induction (module_rules config) as [|r l IH]; [by inversion Hsome|].
      destruct (oneOf r) as [loaders|] eqn:Hr.
      - by exists [], r, l, loaders.
      - destruct IH as (before & rule & after & loaders & -> & Hbefore & Hl).
        + inversion Hsome as [? ? [x Hx]|]; subst; [congruence|done].
        + exists (r :: before), rule, after, loaders. split; [done|]. split; [|done].
          by constructor. }
    eexists. split; [exact (override_found config env before after rule loaders
                              Hrules Hbefore Hl)|].
    simpl. rewrite Hrules, !length_app. done.
Qed.

End Override.

(** ** The sample run *)

Lemma ascInsert_elem (i j : Intersection) (l : list Intersection) :
  j ∈ ascInsert i l -> j = i \/ j ∈ l.
Proof.
  induction l as [|k l IH]; simpl.
  - intros Hj. apply list_elem_of_singleton in Hj. by left.
  - destruct (PrimFloat.leb (distance i) (distance k)).
    + intros Hj. apply elem_of_cons in Hj as [->|Hj]; [by left|by right].
    + intros Hj. apply elem_of_cons in Hj as [->|Hj]; [right; left|].
      destruct (IH Hj) as [->|Hl]; [by left|right; by right].
Qed.

Lemma ascSort_elem (j : Intersection) (l : list Intersection) :
  j ∈ ascSort l -> j ∈ l.
Proof.
  induction l as [|i l IH]; simpl; [done|].
  intros Hj. destruct (ascInsert_elem _ _ _ Hj) as [->|Hl]; [left|right; by apply IH].
Qed.

(** The sample raycaster reports only objects that carry a material. *)
Lemma sample_hits_carry_material :
  forall (ray : Vector2) (store : gmap nat Material) (objs : list Object3D) (i : Intersection),
    i ∈ intersectObjects ray store objs -> is_Some (store !! object_id (object i)).
Proof.
  intros ray store objs i Hi. apply ascSort_elem, list_elem_of_In, in_flat_map in Hi.
  destruct Hi as (o & _ & Hi). unfold sample_raycast_object in Hi.
  destruct (sample_strip (object_id o)) as [[[lo hi] d]|]; [|done].
  destruct (store !! object_id o) as [m|] eqn:Hm; [|done].
  destruct (_ && _)%bool; [|done].
  destruct Hi as [<-|[]]. simpl. by rewrite Hm.
Qed.

Lemma sample_pristine : pristine sampleWorld.
Proof.
  split; [reflexivity|]. intros o Ho.
  apply elem_of_map_to_list in Ho. vm_compute in Ho.
  repeat (apply elem_of_cons in Ho as [Ho|Ho]; [discriminate Ho|]).
  by apply elem_of_nil in Ho.
Qed.

Lemma sample_pointed_hits :
  raycast samplePointed (children chairGroup) =
  [mkIntersection 3 back; mkIntersection 4 seat].
Proof. vm_compute. reflexivity. Qed.

Lemma sample_click_selects : click samplePointed = Normal sampleSelected.
Proof.
  exact (click_hit samplePointed chairGroup (mkIntersection 3 back) [mkIntersection 4 seat]
           eq_refl sample_pointed_hits).
Qed.

Lemma sample_selected_hits :
  raycast sampleSelected (children chairGroup) =
  [mkIntersection 3 back; mkIntersection 4 seat].
Proof. vm_compute. reflexivity. Qed.

Lemma sample_away_misses : raycast sampleAway (children chairGroup) = [].
Proof. vm_compute. reflexivity. Qed.

Lemma sample_click_clears : click sampleAway = Normal sampleCleared.
Proof. exact (click_miss sampleAway chairGroup eq_refl sample_away_misses). Qed.

Lemma sample_run_selected : reachable sampleWorld sampleSelected.
Proof.
  apply reachable_click with samplePointed; [|exact sample_click_selects].
  apply reachable_mousemove, reachable_start.
Qed.


Lemma sample_on_seat_hits :
  raycast sampleOnSeat (children chairGroup) = [mkIntersection 4 seat].
Proof. vm_compute. reflexivity. Qed.

Lemma sample_click_selects_seat : click sampleOnSeat = Normal sampleSeatSelected.
Proof.
  exact (click_hit sampleOnSeat chairGroup (mkIntersection 4 seat) []
           eq_refl sample_on_seat_hits).
Qed.

Lemma sample_run_on_seat : reachable sampleWorld sampleOnSeat.
Proof. apply reachable_mousemove, sample_run_selected. Qed.

Lemma sample_back_starts_with_wood : material sampleWorld !! object_id back = Some wood.
Proof. vm_compute. reflexivity. Qed.



Lemma selection_exclusive_witness :
  pristine sampleWorld /\ reachable sampleWorld sampleOnSeat /\
  target sampleOnSeat = Some back /\
  click sampleOnSeat = Normal sampleSeatSelected /\
  material sampleOnSeat !! object_id back = Some highlight /\
  target sampleSeatSelected = Some seat /\
  material sampleSeatSelected !! object_id seat = Some highlight /\
  material sampleSeatSelected !! object_id back = Some wood /\
  (forall o, material sampleSeatSelected !! o = Some highlight -> o = object_id seat).
Proof.
  split; [exact sample_pristine|]. split; [exact sample_run_on_seat|].
  split; [reflexivity|]. split; [exact sample_click_selects_seat|].
  assert (object_id (object (mkIntersection 4 seat)) <> object_id back) as Hne
    by (simpl; lia).
  destruct (selection_exclusive sample_hits_carry_material sampleWorld sampleOnSeat
              sample_pristine sample_run_on_seat) as (_ & _ & Hsecond).
  destruct (Hsecond back chairGroup (mkIntersection 4 seat) [] sampleSeatSelected
              eq_refl eq_refl sample_on_seat_hits Hne sample_click_selects_seat)
    as (Hbefore & _ & Htarget & _ & Hnew & _ & Hback & Honly).
  split; [exact Hbefore|]. split; [exact Htarget|]. split; [exact Hnew|].
  split; [exact (eq_trans Hback sample_back_starts_with_wood)|exact Honly].
Defined.

Lemma reselect_idempotent_witness :
  target sampleSelected = Some back /\
  click sampleSelected = Normal sampleSelected /\
  tempMaterial sampleSelected = material sampleWorld !! object_id back.
Proof.
  pose proof (click_hit sampleSelected chairGroup _ _ eq_refl sample_selected_hits) as Hclick.
  pose proof (reselect_idempotent sample_hits_carry_material
                sampleWorld sampleSelected _ back chairGroup _ _
                sample_pristine sample_run_selected eq_refl eq_refl
                sample_selected_hits eq_refl Hclick) as (Hsame & _ & _ & Hslot & _).
  split; [reflexivity|]. split; [by rewrite Hclick, Hsame|].
  by rewrite Hsame in Hslot.
Defined.

Lemma restore_round_trip_witness :
  material samplePointed !! object_id back = Some wood /\
  click samplePointed = Normal sampleSelected /\
  click sampleAway = Normal sampleCleared /\
  material sampleCleared !! object_id back = Some wood /\
  target sampleCleared = None.
Proof.
  split; [vm_compute; reflexivity|].
  split; [exact sample_click_selects|]. split; [exact sample_click_clears|].
  assert (moved sampleSelected sampleAway) as Hmoved by apply moved_mousemove, moved_none.
  assert (forall t, target samplePointed = Some t -> object_id t <> object_id back) as Hother
    by (intros t Ht; discriminate Ht).
  assert (material samplePointed !! object_id back = Some wood) as Hwood
    by (vm_compute; reflexivity).
  exact (proj2 (proj2 (restore_round_trip samplePointed sampleSelected sampleAway sampleCleared
           chairGroup back wood _ _ eq_refl sample_pointed_hits eq_refl
           Hother Hwood sample_click_selects Hmoved
           sample_away_misses sample_click_clears))).
Defined.



Lemma click_before_model_load_witness :
  chair sampleStart = None /\ click sampleStart = Normal sampleStart.
Proof. split; [reflexivity|]. exact (click_before_model_load sampleStart eq_refl). Defined.

Lemma click_empty_without_selection_witness :
  target sampleCleared = None /\ tempMaterial sampleCleared = Some wood /\
  click sampleCleared = Normal sampleCleared.
Proof.
  split; [reflexivity|]. split; [vm_compute; reflexivity|].
  apply (click_empty_without_selection sampleCleared); [reflexivity|].
  intros g [= <-]. vm_compute. reflexivity.
Defined.

(** C5, refuted as stated: with the back selected, the first mesh the walk
    meets is the back itself; it is given material number 5, while the slot
    receives material number 4, made just before. *)
Lemma saved_material_is_a_second_object :
  target sampleSelected = Some back /\
  head (List.filter isMesh (descendants back)) = Some back /\
  material sampleTextured !! object_id back =
    Some (MeshPhongMaterial_map 5 (repeat_wrapped sampleTexture)) /\
  tempMaterial sampleTextured =
    Some (MeshPhongMaterial_map 4 (repeat_wrapped sampleTexture)).
Proof. repeat split; vm_compute; reflexivity. Qed.

Lemma updateTexture_postcondition_witness :
  target sampleSelected = Some back /\
  tempMaterial sampleTextured =
    (if existsb isMesh (descendants back)
     then Some (MeshPhongMaterial_map (materialId sampleSelected) (repeat_wrapped sampleTexture))
     else tempMaterial sampleSelected).
Proof.
  split; [reflexivity|].
  destruct (updateTexture_postcondition sampleTexture sampleSelected back eq_refl)
    as (_ & _ & _ & _ & Hslot).
  exact Hslot.
Defined.

(** C6, refuted as stated: on the 800 pixel wide sample canvas a pointer
    at viewport position 1000 is stored as 1.5. *)
Lemma mousemove_past_canvas_edge :
  domElement sampleWorld = mkCanvas 800 600 /\
  mouse (mousemove (mkMouseEvent 1000 300) sampleWorld) = mkVector2 1.5 0 /\
  in_clip (x (mouse (mousemove (mkMouseEvent 1000 300) sampleWorld))) = false.
Proof. repeat split. Qed.

Lemma mousemove_pointer_mapping_witness :
  mouse (mousemove (mkMouseEvent 400 300) sampleWorld) = mkVector2 0 0 /\
  mouse (mousemove (mkMouseEvent 0 0) sampleWorld) = mkVector2 (-1) 1 /\
  in_clip (x (mouse (mousemove (mkMouseEvent 500.5 300) sampleWorld))) = true /\
  in_clip (y (mouse (mousemove (mkMouseEvent 500.5 300) sampleWorld))) = true.
Proof.
  split; [|split].
  - pose proof (mousemove_pointer_mapping (mkMouseEvent 400 300) sampleWorld)
      as (_ & _ & _ & _ & _ & _ & _ & Hx & Hy).
    exact (f_equal2 mkVector2 (Hx eq_refl eq_refl eq_refl) (Hy eq_refl eq_refl eq_refl)).
  - pose proof (mousemove_pointer_mapping (mkMouseEvent 0 0) sampleWorld)
      as (_ & _ & _ & _ & _ & Hx & Hy & _).
    exact (f_equal2 mkVector2 (Hx eq_refl eq_refl) (Hy eq_refl eq_refl)).
  - pose proof (mousemove_pointer_mapping (mkMouseEvent 500.5 300) sampleWorld)
      as (_ & _ & _ & Hx & Hy & _).
    split; [exact (Hx eq_refl eq_refl eq_refl eq_refl)|exact (Hy eq_refl eq_refl eq_refl eq_refl)].
Defined.

(** ** The further properties on the sample *)

Lemma loadModel_rejected_keeps_click_safe_witness :
  chair sampleStart = None /\
  click (loadModel (Rejected "404") sampleStart) = Normal (loadModel (Rejected "404") sampleStart).
Proof.
  split; [reflexivity|].
  destruct (loadModel_rejected_keeps_click_safe "404" sampleStart eq_refl)
    as (_ & _ & _ & Hclick).
  exact Hclick.
Defined.

Lemma sample_start_pristine : pristine sampleStart.
Proof.
  split; [reflexivity|]. intros o Ho.
  apply elem_of_map_to_list in Ho. vm_compute in Ho.
  repeat (apply elem_of_cons in Ho as [Ho|Ho]; [discriminate Ho|]).
  by apply elem_of_nil in Ho.
Qed.

Lemma sample_loaded_clean :
  forall k, gltf_material sampleGLTF !! k <> Some (selectedMaterial sampleStart).
Proof.
  intros k Hk. apply elem_of_map_to_list in Hk. vm_compute in Hk.
  repeat (apply elem_of_cons in Hk as [Hk|Hk]; [discriminate Hk|]).
  by apply elem_of_nil in Hk.
Qed.

Lemma loadModel_pristine_witness : pristine sampleWorld.
Proof.
  exact (loadModel_pristine sampleGLTF sampleStart sample_start_pristine sample_loaded_clean).
Defined.

Lemma click_touches_two_objects_witness :
  click samplePointed = Normal sampleSelected /\
  material sampleSelected !! object_id seat = material samplePointed !! object_id seat.
Proof.
  split; [exact sample_click_selects|].
  apply (click_touches_two_objects samplePointed sampleSelected (object_id seat)
           sample_click_selects).
  - intros t Ht. discriminate Ht.
  - intros t [= <-]. discriminate.
Defined.

Lemma click_twice_is_click_once_witness :
  click samplePointed = Normal sampleSelected /\
  click sampleSelected = Normal sampleSelected.
Proof.
  pose proof (click_hit sampleSelected chairGroup _ _ eq_refl sample_selected_hits) as Hclick2.
  assert (forall g i rest,
             chair samplePointed = Some g -> raycast samplePointed (children g) = i :: rest ->
             is_Some (material samplePointed !! object_id (object i))) as Hcarry.
  { intros g i rest [= <-] Hray. rewrite sample_pointed_hits in Hray.
    injection Hray as <- _. vm_compute. by eexists. }
  assert (forall g, chair samplePointed = Some g ->
                    raycast sampleSelected (children g) = raycast samplePointed (children g))
    as Hsame.
  { intros g [= <-]. by rewrite sample_selected_hits, sample_pointed_hits. }
  pose proof (click_twice_is_click_once samplePointed sampleSelected _
                Hcarry sample_click_selects Hsame Hclick2) as Hfixed.
  split; [exact sample_click_selects|].
  exact (eq_trans Hclick2 (f_equal Normal Hfixed)).
Defined.

Lemma updateTexture_without_selection_witness :
  target sampleWorld = None /\
  updateTexture (Fulfilled sampleTexture) sampleWorld = sampleWorld.
Proof.
  split; [reflexivity|].
  exact (updateTexture_without_selection sampleTexture sampleWorld eq_refl).
Defined.

Lemma updateTexture_keeps_the_rest_witness :
  target sampleTextured = Some back /\
  material sampleTextured !! object_id seat = material sampleSelected !! object_id seat.
Proof.
  destruct (updateTexture_keeps_the_rest sampleTexture sampleSelected back eq_refl)
    as (_ & Htarget & Hkeep).
  split; [exact Htarget|]. apply Hkeep.
  intros obj Hobj _ Hid. vm_compute in Hobj.
  repeat (apply elem_of_cons in Hobj as [->|Hobj]; [discriminate Hid|]).
  by apply elem_of_nil in Hobj.
Defined.

Lemma updateTexture_materials_made_witness :
  materialId sampleSelected = 4 /\ materialId sampleTextured = 7.
Proof.
  split; [reflexivity|].
  exact (updateTexture_materials_made sampleTexture sampleSelected back eq_refl).
Defined.

Lemma updateTexture_replaces_highlight_witness :
  material sampleSelected !! object_id back = Some highlight /\
  target sampleTextured = Some back /\
  material sampleTextured !! object_id back <> Some (selectedMaterial sampleTextured).
Proof.
  split; [vm_compute; reflexivity|].
  destruct (updateTexture_replaces_highlight sampleTexture sampleSelected back
              eq_refl eq_refl eq_refl) as (Htarget & _ & Hplain).
  split; [exact Htarget|exact Hplain].
Defined.

Lemma sample_textured_away_misses :
  raycast sampleTexturedAway (children chairGroup) = [].
Proof. vm_compute. reflexivity. Qed.

Lemma texture_survives_deselect_witness :
  material sampleWorld !! object_id back = Some wood /\
  material (set_target None (restoreMaterial sampleTexturedAway)) !! object_id back =
    Some (MeshPhongMaterial_map 4 (repeat_wrapped sampleTexture)).
Proof.
  split; [vm_compute; reflexivity|].
  pose proof (click_miss sampleTexturedAway chairGroup eq_refl sample_textured_away_misses)
    as Hclick.
  destruct (texture_survives_deselect sampleTexture sampleAway _ back chairGroup
              eq_refl eq_refl eq_refl sample_textured_away_misses Hclick) as (_ & Hkept).
  exact Hkept.
Defined.

Lemma mousemove_zero_size_canvas_witness :
  in_clip (x (mouse (mousemove (mkMouseEvent (pixel 5) (pixel 7)) sampleCollapsed))) = false /\
  in_clip (y (mouse (mousemove (mkMouseEvent (pixel 5) (pixel 7)) sampleCollapsed))) = false.
Proof.
  assert (5 <= max_pixels /\ 7 <= max_pixels) as [H5 H7] by (unfold max_pixels; lia).
  destruct (mousemove_zero_size_canvas sampleCollapsed 5 7 H5 H7) as [Hx Hy].
  split; [exact (Hx eq_refl)|exact (Hy eq_refl)].
Defined.

Lemma sample_looping_run : loop_run (draw tt sampleMounting) sampleLooping.
Proof. apply loop_frame, loop_start. Qed.

Lemma render_loop_keeps_one_frame_witness :
  timer sampleLooping = 2 /\ pending (frames sampleLooping) = {[timer sampleLooping]}.
Proof.
  split; [reflexivity|].
  exact (proj1 (render_loop_keeps_one_frame tt sampleMounting sampleLooping
                  eq_refl sample_looping_run)).
Defined.

Lemma dispose_stops_the_loop_witness :
  pending (frames (dispose sampleLooping)) = ∅ /\
  run_frame 2 tt (dispose sampleLooping) = dispose sampleLooping.
Proof.
  destruct (dispose_stops_the_loop tt sampleMounting sampleLooping eq_refl sample_looping_run)
    as (Hgone & _ & Hstill & _).
  split; [exact Hgone|exact (Hstill 2 tt)].
Defined.

Lemma dispose_misses_an_older_frame_witness :
  pending (frames (dispose (draw tt sampleLooping))) = {[2]}.
Proof.
  exact (dispose_misses_an_older_frame tt tt sampleMounting sampleLooping
           eq_refl sample_looping_run).
Defined.

Lemma override_before_the_last_two_witness :
  exists config',
    override sampleConfig "development" = Normal config' /\
    (oneOf <$> module_rules config' !! 1) =
    Some (Some [ {| test := Some "\.(js|jsx|ts|tsx)$"; use := ["babel-loader"]; oneOf := None |};
                 shaderRule;
                 {| test := Some "\.css$"; use := ["style-loader"; "css-loader"]; oneOf := None |};
                 {| test := None; use := ["file-loader"]; oneOf := None |} ]).
Proof.
  eexists. split.
  - apply (override_before_the_last_two sampleConfig "development"
             [ {| test := Some "\.(js|jsx)$"; use := ["eslint-loader"]; oneOf := None |} ]
             []
             [ {| test := Some "\.(js|jsx|ts|tsx)$"; use := ["babel-loader"]; oneOf := None |} ]
             {| test := None; use := []; oneOf := Some sampleLoaders |}).
    + reflexivity.
    + by repeat constructor.
    + reflexivity.
  - reflexivity.
Defined.

Lemma override_short_array_witness :
  override sampleShortConfig "development" =
  Normal {| module_rules :=
              [ {| test := None; use := [];
                   oneOf := Some [ shaderRule;
                                   {| test := None; use := ["file-loader"]; oneOf := None |} ] |} ] |}.
Proof.
  apply (override_short_array sampleShortConfig "development" [] []
           [ {| test := None; use := ["file-loader"]; oneOf := None |} ]
           {| test := None; use := [];
              oneOf := Some [ {| test := None; use := ["file-loader"]; oneOf := None |} ] |}).
  - reflexivity.
  - constructor.
  - reflexivity.
  - simpl. lia.
Defined.
